(** * DeckTutor combo detection service: python-service/main.py

    A shallow embedding of the combo lookup cache
    ([get_card_combos_cached]), the deck combo matcher
    ([find_combos_in_deck]) and the request handler ([check_combos]),
    and of the module-level [allowed_origins], followed by the
    properties of the service's specification and by further properties
    of the code.

    Python strings are modelled as [string] (ASCII), the module-level
    [combo_cache] dict as a [gmap], the request-local [found_combos] and
    [potential_combos] dicts as insertion-ordered association lists
    (their [values()] are returned in insertion order), and [deck_cards]
    as a [gset]. *)

From stdpp Require Import base strings list gmap pretty.
From Stdlib Require Import ZArith Ascii.

Open Scope string_scope.
Open Scope list_scope.
Open Scope nat_scope.

(** ** Strings *)

(** [c.lower()] on one character: [A]..[Z] are mapped to [a]..[z]. *)
Definition lower_ascii (a : ascii) : ascii :=
  let n := nat_of_ascii a in
  if (65 <=? n)%nat && (n <=? 90)%nat then ascii_of_nat (n + 32) else a.

(** [str.lower()], on ASCII strings: characters outside [A]..[Z] are
    left as they are. *)
Fixpoint lower (s : string) : string :=
  match s with
  | EmptyString => EmptyString
  | String a s' => String (lower_ascii a) (lower s')
  end.

(** ** Insertion-ordered dicts

    A Python [dict] keeps its keys in insertion order; [list(d.values())]
    lists the values in that order. *)
Module odict.
Definition t (V : Type) : Type := list (string * V).

Definition empty {V} : t V := [].

(** [list(d.keys())] *)
Definition keys {V} (d : t V) : list string := d.*1.

(** [list(d.values())] *)
Definition values {V} (d : t V) : list V := d.*2.

(** [k in d] *)
Definition mem {V} (k : string) (d : t V) : bool := bool_decide (k ∈ keys d).

(** [d[k] = v]: an existing key keeps its position, a new key goes last. *)
Fixpoint set {V} (k : string) (v : V) (d : t V) : t V :=
  match d with
  | [] => [(k, v)]
  | (k', v') :: d' =>
      if decide (k' = k) then (k', v) :: d' else (k', v') :: set k v d'
  end.
End odict.

(** ** Data model *)

(** The raw combo dictionary of the provider, seen through the nine keys
    the matcher reads; [None] is an absent key. *)
Module ComboRecord.
Record t : Type := mk {
  id : option string;
  name : option string;
  cards : option (list string);
  description : option string;
  prerequisite : option string;
  steps : option (list string);
  result : option string;
  colorIdentity : option (list string);
  sourceUrl : option string
}.
End ComboRecord.

Module Combo.
Record t : Type := mk {
  id : string;
  name : option string;
  cards : list string;
  description : string;
  prerequisite : option string;
  steps : list string;
  result : string;
  color_identity : list string;
  source_url : option string
}.
End Combo.

Module DeckCombo.
Record t : Type := mk {
  combo : Combo.t;
  is_complete : bool;
  present_cards : list string;
  missing_cards : list string
}.
End DeckCombo.

Module PotentialCombo.
Record t : Type := mk {
  cards : list string;
  missing_pieces : list string;
  description : string
}.
End PotentialCombo.

Module ComboRequest.
Record t : Type := mk {
  cards : list string;
  commander : option string
}.
End ComboRequest.

Module ComboResponse.
Record t : Type := mk {
  combos : list DeckCombo.t;
  potential_combos : list PotentialCombo.t;
  analyzed_cards : nat;
  processing_time : Z
}.
End ComboResponse.

(** [raise HTTPException(status_code=..., detail=...)] *)
Record HTTPException : Type := mkHTTPException {
  status_code : Z;
  detail : string
}.

(** ** The world outside the functions *)

(** What one attempt to reach the provider does: the import of
    [pyedhrec] fails, the call raises (with the exception's text), or
    the call returns ([None] or a list). *)
Inductive Outcome : Type :=
  | ImportError
  | Raises (e : string)
  | Returns (combos : option (list ComboRecord.t)).

(** The mutable state of the process: the module-level [combo_cache],
    the card names of the provider attempts made so far, the lines
    printed, and the number of clock readings taken. *)
Record World : Type := mkWorld {
  combo_cache : gmap string (list ComboRecord.t);
  provider_calls : list string;
  stdout : list string;
  clock_reads : nat
}.

Definition set_cache (c : gmap string (list ComboRecord.t)) (w : World) : World :=
  mkWorld c (provider_calls w) (stdout w) (clock_reads w).

Definition log_call (card_name : string) (w : World) : World :=
  mkWorld (combo_cache w) (provider_calls w ++ [card_name]) (stdout w) (clock_reads w).

Definition print (line : string) (w : World) : World :=
  mkWorld (combo_cache w) (provider_calls w) (stdout w ++ [line]) (clock_reads w).

Section Service.

(** The interpreter's [hash] on [str], fixed for one process. *)
Variable hash : string -> Z.

(** [str(combo_data)]: the rendering of a raw combo dictionary. *)
Variable str_dict : ComboRecord.t -> string.

(** The provider: the outcome of the [n]-th attempt (counted from 0)
    when it is made for a card name. *)
Variable edhrec : nat -> string -> Outcome.

(** [time.time()] at the [n]-th reading, in milliseconds. *)
Variable now : nat -> Z.

Definition time_time (w : World) : Z * World :=
  (now (clock_reads w),
   mkWorld (combo_cache w) (provider_calls w) (stdout w) (S (clock_reads w))).

(** ** Combo lookup cache *)

(** [combos if combos else []] *)
Definition or_empty (combos : option (list ComboRecord.t)) : list ComboRecord.t :=
  match combos with
  | Some (c :: l) => c :: l
  | _ => []
  end.

Definition get_card_combos_cached (card_name : string) (w : World)
  : list ComboRecord.t * World :=
  let cache_key := lower card_name in
  match combo_cache w !! cache_key with
  | Some stored => (stored, w)
  | None =>
      let w1 := log_call card_name w in
      match edhrec (length (provider_calls w)) card_name with
      | Returns combos =>
          let w2 := set_cache (<[cache_key := or_empty combos]> (combo_cache w1)) w1 in
          (or_empty combos, w2)
      | ImportError => ([], w1)
      | Raises e =>
          ([], print ("Error fetching combos for " +:+ card_name +:+ ": " +:+ e) w1)
      end
  end.

(** ** Deck combo matcher *)

(** [combo_data.get("id", str(hash(str(combo_data))))]; [pretty] writes
    an integer in decimal, with a leading minus sign when negative, as
    [str] does. *)
Definition combo_id_of (combo_data : ComboRecord.t) : string :=
  default (pretty (hash (str_dict combo_data))) (ComboRecord.id combo_data).

(** [[c.lower() for c in combo_data.get("cards", [])]] *)
Definition combo_cards_of (combo_data : ComboRecord.t) : list string :=
  lower <$> default [] (ComboRecord.cards combo_data).

(** [[c for c in combo_cards if c in deck_cards]] *)
Definition present_of (deck_cards : gset string) (combo_cards : list string)
  : list string :=
  filter (λ c, c ∈ deck_cards) combo_cards.

(** [[c for c in combo_cards if c not in deck_cards]] *)
Definition missing_of (deck_cards : gset string) (combo_cards : list string)
  : list string :=
  filter (λ c, c ∉ deck_cards) combo_cards.

Definition make_deck_combo (combo_id : string) (combo_data : ComboRecord.t)
    (present : list string) : DeckCombo.t :=
  DeckCombo.mk
    (Combo.mk combo_id
       (ComboRecord.name combo_data)
       (default [] (ComboRecord.cards combo_data))
       (default "" (ComboRecord.description combo_data))
       (ComboRecord.prerequisite combo_data)
       (default [] (ComboRecord.steps combo_data))
       (default "" (ComboRecord.result combo_data))
       (default [] (ComboRecord.colorIdentity combo_data))
       (ComboRecord.sourceUrl combo_data))
    true present [].

(** [combo_data.get("result", combo_data.get("description", "Unknown combo"))] *)
Definition potential_description (combo_data : ComboRecord.t) : string :=
  default (default "Unknown combo" (ComboRecord.description combo_data))
          (ComboRecord.result combo_data).

Definition make_potential (combo_data : ComboRecord.t)
    (present missing : list string) : PotentialCombo.t :=
  PotentialCombo.mk present missing (potential_description combo_data).

(** The two request-local dicts: [found_combos] and [potential_combos]. *)
Record Matcher : Type := mkMatcher {
  found_combos : odict.t DeckCombo.t;
  potential_combos : odict.t PotentialCombo.t
}.

(** The body of the inner loop, for one [combo_data]. *)
Definition classify (deck_cards : gset string) (m : Matcher)
    (combo_data : ComboRecord.t) : Matcher :=
  let combo_id := combo_id_of combo_data in
  let combo_cards := combo_cards_of combo_data in
  match combo_cards with
  | [] => m
  | _ :: _ =>
      let present := present_of deck_cards combo_cards in
      let missing := missing_of deck_cards combo_cards in
      if decide (length present < 2) then m
      else
        match missing with
        | [] =>
            if odict.mem combo_id (found_combos m) then m
            else mkMatcher
                   (odict.set combo_id
                      (make_deck_combo combo_id combo_data present)
                      (found_combos m))
                   (potential_combos m)
        | _ :: _ =>
            if negb (odict.mem combo_id (potential_combos m))
               && negb (odict.mem combo_id (found_combos m))
            then mkMatcher
                   (found_combos m)
                   (odict.set combo_id
                      (make_potential combo_data present missing)
                      (potential_combos m))
            else m
        end
  end.

(** [set(c.lower() for c in card_names)] *)
Definition deck_cards_of (card_names : list string) : gset string :=
  list_to_set (lower <$> card_names).

(** The body of the outer loop, for one [card_name]. *)
Definition match_card (deck_cards : gset string) (st : Matcher * World)
    (card_name : string) : Matcher * World :=
  let '(card_combos, w') := get_card_combos_cached card_name st.2 in
  (foldl (classify deck_cards) st.1 card_combos, w').

(** The two loops, from the empty dicts. *)
Definition match_deck (card_names : list string) (w : World) : Matcher * World :=
  foldl (match_card (deck_cards_of card_names))
        (mkMatcher odict.empty odict.empty, w) card_names.

Definition find_combos_in_deck (card_names : list string) (w : World)
  : (list DeckCombo.t * list PotentialCombo.t) * World :=
  let '(m, w') := match_deck card_names w in
  ((odict.values (found_combos m), odict.values (potential_combos m)), w').

(** The records the outer loop hands to the inner loop, in the order
    they are processed, and the world after the last lookup. *)
Fixpoint fetch_all (card_names : list string) (w : World)
  : list ComboRecord.t * World :=
  match card_names with
  | [] => ([], w)
  | card_name :: rest =>
      let '(card_combos, w1) := get_card_combos_cached card_name w in
      let '(more, w2) := fetch_all rest w1 in
      (card_combos ++ more, w2)
  end.

(** ** Request handler

    The two validation errors are raised before the [try] block.  The
    matcher is total on typed records, so the [except Exception] arm
    (status 500) has no counterpart here. *)

Definition check_combos (request : ComboRequest.t) (w : World)
  : (HTTPException + ComboResponse.t) * World :=
  match ComboRequest.cards request with
  | [] => (inl (mkHTTPException 400 "No cards provided"), w)
  | _ :: _ =>
      if decide (200 < length (ComboRequest.cards request))
      then (inl (mkHTTPException 400 "Too many cards (max 200)"), w)
      else
        let '(start_time, w1) := time_time w in
        let '((complete_combos, potential), w2) :=
          find_combos_in_deck (ComboRequest.cards request) w1 in
        let '(end_time, w3) := time_time w2 in
        (inr (ComboResponse.mk
                complete_combos
                (take 20 potential)
                (length (ComboRequest.cards request))
                (end_time - start_time)%Z),
         w3)
  end.

End Service.

(** ** Module-level configuration *)

(** [s.split(",")]: the pieces between the commas, at least one piece,
    nothing trimmed. *)
Fixpoint split_comma (s : string) : list string :=
  match s with
  | EmptyString => [EmptyString]
  | String a s' =>
      if decide (a = ","%char) then EmptyString :: split_comma s'
      else match split_comma s' with
           | piece :: pieces => String a piece :: pieces
           | [] => [String a EmptyString]
           end
  end.

(** [os.getenv("ALLOWED_ORIGINS", "http://localhost:3000").split(",")],
    for the value of the environment variable, [None] when it is unset. *)
Definition allowed_origins (env : option string) : list string :=
  split_comma (default "http://localhost:3000" env).

(** ** What the cache holds for a deck *)

(** The lists stored for the cards of a deck, one after the other; a
    card without entry contributes nothing. *)
Definition cached_records (cache : gmap string (list ComboRecord.t))
    (card_names : list string) : list ComboRecord.t :=
  concat ((λ card_name, default [] (cache !! lower card_name)) <$> card_names).

(** What one lookup does, case by case. *)
Inductive looked_up (edhrec : nat → string → Outcome) (card_name : string)
    (w : World) : list ComboRecord.t * World → Prop :=
  | looked_up_hit stored :
      combo_cache w !! lower card_name = Some stored →
      looked_up edhrec card_name w (stored, w)
  | looked_up_returns combos :
      combo_cache w !! lower card_name = None →
      edhrec (length (provider_calls w)) card_name = Returns combos →
      looked_up edhrec card_name w
        (or_empty combos,
         set_cache (<[lower card_name := or_empty combos]> (combo_cache w))
                   (log_call card_name w))
  | looked_up_import_error :
      combo_cache w !! lower card_name = None →
      edhrec (length (provider_calls w)) card_name = ImportError →
      looked_up edhrec card_name w ([], log_call card_name w)
  | looked_up_raises e :
      combo_cache w !! lower card_name = None →
      edhrec (length (provider_calls w)) card_name = Raises e →
      looked_up edhrec card_name w
        ([], print ("Error fetching combos for " +:+ card_name +:+ ": " +:+ e)
                   (log_call card_name w)).

(** ** Sample inputs

    Concrete records, providers and worlds on which the properties below
    are evaluated. *)

Definition record (id : option string) (cards : list string)
    (description result : option string) : ComboRecord.t :=
  ComboRecord.mk id None (Some cards) description None None result None None.

(** A world with a cold cache in which nothing has happened yet. *)
Definition fresh : World := mkWorld ∅ [] [] 0.

(** A clock that advances by three milliseconds per reading. *)
Definition sample_now (n : nat) : Z := (1000 + 3 * Z.of_nat n)%Z.

(** A seeded string hash: one seed per process.  It only stands for the
    fact that the interpreter's [hash] differs between processes. *)
Definition seeded_hash (seed : Z) (s : string) : Z :=
  foldl (λ h a, ((h * 1000003) mod 2 ^ 64 + Z.of_nat (nat_of_ascii a)) mod 2 ^ 64)%Z
        seed (String.list_ascii_of_string s).

(** A rendering of a record: its card names and its two texts. *)
Definition sample_str (r : ComboRecord.t) : string :=
  String.concat "," (default [] (ComboRecord.cards r))
  +:+ "|" +:+ default "" (ComboRecord.description r)
  +:+ "|" +:+ default "" (ComboRecord.result r).

(** Scenario records: one combo whose cards are all in the deck of
    "Card A", "Card B", "Card C", one that misses "Card D", and one that
    touches the deck in a single card. *)
Definition c1_complete : ComboRecord.t :=
  record (Some "c1") ["Card A"; "Card B"] (Some "two cards") (Some "win").

Definition c2_partial : ComboRecord.t :=
  record (Some "c2") ["Card A"; "Card B"; "Card D"] (Some "three cards") None.

Definition c3_single : ComboRecord.t :=
  record (Some "c3") ["Card A"; "Card X"; "Card Y"] None None.

(** The same identity "c1" with a longer card list. *)
Definition c1_partial : ComboRecord.t :=
  record (Some "c1") ["Card A"; "Card B"; "Card D"] None None.

(** A combo whose card list names one card twice, in two letter cases. *)
Definition doubled : ComboRecord.t :=
  record (Some "dup") ["Card A"; "card a"] None None.

(** A provider that serves the doubled combo for every card. *)
Definition doubled_provider (n : nat) (card_name : string) : Outcome :=
  Returns (Some [doubled]).

(** A record without an ["id"] key. *)
Definition anonymous : ComboRecord.t :=
  record None ["Card A"; "Card B"] None (Some "draw").

Definition sample_deck : list string := ["Card A"; "Card B"; "Card C"].

(** A provider that knows three combos of "Card A" and nothing else. *)
Definition sample_provider (n : nat) (card_name : string) : Outcome :=
  if decide (card_name = "Card A")
  then Returns (Some [c1_complete; c2_partial; c3_single])
  else Returns None.

(** A provider that serves one anonymous combo for "Card A". *)
Definition anonymous_provider (n : nat) (card_name : string) : Outcome :=
  if decide (card_name = "Card A") then Returns (Some [anonymous]) else Returns (Some []).

(** A provider that reports identity "c1" with three cards under
    "Card A" and with two cards under "Card B". *)
Definition split_provider (n : nat) (card_name : string) : Outcome :=
  if decide (card_name = "Card A") then Returns (Some [c1_partial])
  else if decide (card_name = "Card B") then Returns (Some [c1_complete])
  else Returns (Some []).

(** A provider whose first attempt raises and whose later attempts
    succeed. *)
Definition flaky_provider (n : nat) (card_name : string) : Outcome :=
  match n with
  | 0 => Raises "timed out"
  | S _ => Returns (Some [c1_complete])
  end.

(** A provider whose module cannot be imported on the first attempt. *)
Definition late_provider (n : nat) (card_name : string) : Outcome :=
  match n with
  | 0 => ImportError
  | S _ => Returns (Some [c1_complete])
  end.

(** A provider that serves forty-two distinct partial combos of "Card A". *)
Definition many_partial (n : nat) (card_name : string) : Outcome :=
  if decide (card_name = "Card A")
  then Returns (Some ((λ i, record (Some (pretty i)) ["Card A"; "Card B"; "Card Z"]
                              None (Some (pretty i))) <$> seq 0 42))
  else Returns None.

(** A provider that is down: every attempt raises. *)
Definition failing_provider (n : nat) (card_name : string) : Outcome :=
  Raises "connection refused".

(** The world after the sample deck has been looked up once. *)
Definition warm : World := (fetch_all sample_provider sample_deck fresh).2.

(** A request for the sample deck that names a commander. *)
Definition sample_request : ComboRequest.t :=
  ComboRequest.mk sample_deck (Some "Card C").

(** * Properties *)

(** ** Insertion-ordered dicts *)

Lemma odict_mem_true {V} (k : string) (d : odict.t V) :
  odict.mem k d = true ↔ k ∈ odict.keys d.
Proof. unfold odict.mem. apply bool_decide_eq_true. Qed.

Lemma odict_mem_false {V} (k : string) (d : odict.t V) :
  odict.mem k d = false ↔ k ∉ odict.keys d.
Proof. unfold odict.mem. apply bool_decide_eq_false. Qed.

(** Setting a key that is not in the dict appends the entry. *)
Lemma odict_set_fresh {V} (k : string) (v : V) (d : odict.t V) :
  k ∉ odict.keys d → odict.set k v d = d ++ [(k, v)].
Proof.
  induction d as [|[k' v'] d IH]; simpl; [done|].
  rewrite not_elem_of_cons. intros [Hne Hnin].
  destruct (decide (k' = k)) as [->|_]; [done|].
  by rewrite IH.
Qed.

Lemma odict_keys_app {V} (d1 d2 : odict.t V) :
  odict.keys (d1 ++ d2) = odict.keys d1 ++ odict.keys d2.
Proof. unfold odict.keys. apply fmap_app. Qed.

Lemma odict_values_app {V} (d1 d2 : odict.t V) :
  odict.values (d1 ++ d2) = odict.values d1 ++ odict.values d2.
Proof. unfold odict.values. apply fmap_app. Qed.

Lemma odict_elem_of_values {V} (v : V) (d : odict.t V) :
  v ∈ odict.values d ↔ ∃ k, (k, v) ∈ d.
Proof.
  unfold odict.values. rewrite list_elem_of_fmap. split.
  - intros [[k v'] [-> Hin]]. by exists k.
  - intros [k Hin]. by exists (k, v).
Qed.

Lemma odict_elem_of_keys {V} (k : string) (d : odict.t V) :
  k ∈ odict.keys d ↔ ∃ v, (k, v) ∈ d.
Proof.
  unfold odict.keys. rewrite list_elem_of_fmap. split.
  - intros [[k' v] [-> Hin]]. by exists v.
  - intros [v Hin]. by exists (k, v).
Qed.

(** ** The inner loop body, case by case *)

Section Matcher_facts.

Variable hash : string -> Z.
Variable str_dict : ComboRecord.t -> string.
Variable deck_cards : gset string.

Local Abbreviation cid := (combo_id_of hash str_dict).
Local Abbreviation step := (classify hash str_dict deck_cards).
Local Abbreviation present r := (present_of deck_cards (combo_cards_of r)).
Local Abbreviation missing r := (missing_of deck_cards (combo_cards_of r)).

(** What one pass of the inner loop does to the two dicts. *)
Inductive classified (m : Matcher) (r : ComboRecord.t) : Matcher → Prop :=
  | classified_skip :
      classified m r m
  | classified_complete :
      combo_cards_of r ≠ [] →
      2 ≤ length (present r) →
      missing r = [] →
      cid r ∉ odict.keys (found_combos m) →
      classified m r
        (mkMatcher
           (found_combos m
              ++ [(cid r, make_deck_combo (cid r) r (present r))])
           (potential_combos m))
  | classified_potential :
      combo_cards_of r ≠ [] →
      2 ≤ length (present r) →
      missing r ≠ [] →
      cid r ∉ odict.keys (potential_combos m) →
      cid r ∉ odict.keys (found_combos m) →
      classified m r
        (mkMatcher
           (found_combos m)
           (potential_combos m
              ++ [(cid r, make_potential r (present r) (missing r))])).

Lemma classify_classified m r : classified m r (step m r).
Proof.
  unfold classify.
  destruct (combo_cards_of r) as [|c cs] eqn:Hcards; [constructor|].
  rewrite <- Hcards.
  destruct (decide (length (present r) < 2)) as [|Hlen]; [constructor|].
  destruct (missing r) as [|x xs] eqn:Hmiss.
  - destruct (odict.mem _ (found_combos m)) eqn:Hmem; [constructor|].
    apply odict_mem_false in Hmem.
    rewrite odict_set_fresh by done.
    apply classified_complete; [congruence|lia|done|done].
  - rewrite <- Hmiss.
    destruct (odict.mem _ (potential_combos m)) eqn:Hp; simpl; [constructor|].
    destruct (odict.mem _ (found_combos m)) eqn:Hf; simpl; [constructor|].
    apply odict_mem_false in Hp, Hf.
    rewrite odict_set_fresh by done.
    apply classified_potential; [congruence|lia|congruence|done|done].
Qed.

(** Where the entries of [found_combos] come from after the inner loop
    has run over [rs]. *)
Lemma found_after m rs k dc :
  (k, dc) ∈ found_combos (foldl step m rs) →
  (k, dc) ∈ found_combos m ∨
  ∃ r, r ∈ rs ∧ k = cid r ∧ combo_cards_of r ≠ [] ∧
       2 ≤ length (present r) ∧ missing r = [] ∧
       dc = make_deck_combo (cid r) r (present r).
Proof.
  revert m. induction rs as [|r rs IH]; intros m; simpl; [by left|].
  intros [Hin|(r' & Hr' & Hrest)]%IH.
  - destruct (classify_classified m r) as [|Hc Hl Hm Hk|]; simpl in Hin;
      [by left| |by left].
    apply elem_of_app in Hin as [Hin|Hin]; [by left|].
    apply list_elem_of_singleton in Hin. injection Hin as -> ->.
    right. exists r. split; [apply elem_of_cons; by left|done].
  - right. exists r'. split; [apply elem_of_cons; by right|done].
Qed.

(** Where the entries of [potential_combos] come from. *)
Lemma potential_after m rs k pc :
  (k, pc) ∈ potential_combos (foldl step m rs) →
  (k, pc) ∈ potential_combos m ∨
  ∃ r, r ∈ rs ∧ k = cid r ∧ combo_cards_of r ≠ [] ∧
       2 ≤ length (present r) ∧ missing r ≠ [] ∧
       pc = make_potential r (present r) (missing r).
Proof.
  revert m. induction rs as [|r rs IH]; intros m; simpl; [by left|].
  intros [Hin|(r' & Hr' & Hrest)]%IH.
  - destruct (classify_classified m r) as [| |Hc Hl Hm Hk]; simpl in Hin;
      [by left|by left|].
    apply elem_of_app in Hin as [Hin|Hin]; [by left|].
    apply list_elem_of_singleton in Hin. injection Hin as -> ->.
    right. exists r. split; [apply elem_of_cons; by left|done].
  - right. exists r'. split; [apply elem_of_cons; by right|done].
Qed.

(** A record with no card or with fewer than two present cards leaves
    both dicts as they are. *)
Lemma classify_no_cards m r : combo_cards_of r = [] → step m r = m.
Proof. unfold classify. by intros ->. Qed.

Lemma classify_below_threshold m r :
  length (present r) < 2 → step m r = m.
Proof.
  intros Hlen. unfold classify.
  destruct (combo_cards_of r); [done|].
  by rewrite decide_True.
Qed.

(** Once an identity is in [found_combos], no record of that identity
    changes [potential_combos]; entries of either dict are never
    replaced or removed. *)
Lemma classify_complete_blocks_potential m r :
  cid r ∈ odict.keys (found_combos m) →
  potential_combos (step m r) = potential_combos m.
Proof. intros Hin. by destruct (classify_classified m r). Qed.

Lemma classify_found_grows m r :
  found_combos m `prefix_of` found_combos (step m r).
Proof.
  destruct (classify_classified m r); simpl; [done| |done].
  by apply prefix_app_r.
Qed.

Lemma classify_potential_grows m r :
  potential_combos m `prefix_of` potential_combos (step m r).
Proof.
  destruct (classify_classified m r); simpl; [done|done|].
  by apply prefix_app_r.
Qed.

End Matcher_facts.

(** ** The outer loop as a run of the inner loop over the fetched records *)

Lemma match_card_fetch hash str_dict edhrec deck_cards card_names m w :
  foldl (match_card hash str_dict edhrec deck_cards) (m, w) card_names
  = (foldl (classify hash str_dict deck_cards) m (fetch_all edhrec card_names w).1,
     (fetch_all edhrec card_names w).2).
Proof.
  revert m w. induction card_names as [|card_name rest IH]; intros m w; [done|].
  simpl. unfold match_card at 2. simpl.
  destruct (get_card_combos_cached edhrec card_name w) as [card_combos w1].
  rewrite IH. destruct (fetch_all edhrec rest w1) as [more w2]. simpl.
  by rewrite foldl_app.
Qed.

Lemma match_deck_fetch hash str_dict edhrec card_names w :
  match_deck hash str_dict edhrec card_names w
  = (foldl (classify hash str_dict (deck_cards_of card_names))
           (mkMatcher odict.empty odict.empty)
           (fetch_all edhrec card_names w).1,
     (fetch_all edhrec card_names w).2).
Proof. apply match_card_fetch. Qed.

Lemma find_combos_in_deck_matcher hash str_dict edhrec card_names w :
  (find_combos_in_deck hash str_dict edhrec card_names w).1
  = (odict.values (found_combos (match_deck hash str_dict edhrec card_names w).1),
     odict.values (potential_combos (match_deck hash str_dict edhrec card_names w).1)).
Proof.
  unfold find_combos_in_deck.
  by destruct (match_deck hash str_dict edhrec card_names w).
Qed.

(** ** The matcher's results *)

(** C1: the first classification of a combo identity is meant to be
    final, so that no identity is in both result lists.  The matcher
    guards the potential branch with both dicts but the complete branch
    with [found_combos] only: on the deck "Card A", "Card B", where the
    provider reports identity "c1" with the cards A, B, D under "Card A"
    and with the cards A, B under "Card B", the identity is registered as
    potential first and as complete afterwards, and it is returned in
    both lists. *)
Theorem C1_identity_in_both_lists :
  let m := (match_deck (seeded_hash 1) sample_str split_provider
                       ["Card A"; "Card B"] fresh).1 in
  let results := (find_combos_in_deck (seeded_hash 1) sample_str split_provider
                                      ["Card A"; "Card B"] fresh).1 in
  odict.keys (found_combos m) = ["c1"] ∧
  odict.keys (potential_combos m) = ["c1"] ∧
  results.1 = [make_deck_combo "c1" c1_complete ["card a"; "card b"]] ∧
  results.2 = [make_potential c1_partial ["card a"; "card b"] ["card d"]].
Proof. vm_compute. done. Qed.

(** ** The lookup cache *)

(** C2 (as the code has it): when the lookup misses and the attempt to
    reach the provider fails, by a failed import or by an exception, the
    lookup returns the empty list and leaves the cache as it was; nothing
    is stored for the key, so the next lookup of that card misses again,
    makes a further attempt, returns what that attempt gives and, when
    that attempt succeeds, stores its answer under the key (and stores
    nothing when it fails again). *)
Theorem C2_failure_is_not_cached edhrec card_name w :
  combo_cache w !! lower card_name = None →
  (edhrec (length (provider_calls w)) card_name = ImportError
   ∨ ∃ e, edhrec (length (provider_calls w)) card_name = Raises e) →
  let first := get_card_combos_cached edhrec card_name w in
  let second := get_card_combos_cached edhrec card_name first.2 in
  first.1 = [] ∧
  combo_cache first.2 = combo_cache w ∧
  combo_cache first.2 !! lower card_name = None ∧
  provider_calls first.2 = provider_calls w ++ [card_name] ∧
  provider_calls second.2 = provider_calls w ++ [card_name; card_name] ∧
  second.1 = match edhrec (S (length (provider_calls w))) card_name with
             | Returns combos => or_empty combos
             | _ => []
             end ∧
  combo_cache second.2
  = match edhrec (S (length (provider_calls w))) card_name with
    | Returns combos => <[lower card_name := or_empty combos]> (combo_cache w)
    | _ => combo_cache w
    end.
Proof.
  intros Hmiss Hfail.
  assert (get_card_combos_cached edhrec card_name w
          = ([], log_call card_name w)
          ∨ ∃ e, get_card_combos_cached edhrec card_name w
                 = ([], print ("Error fetching combos for " +:+ card_name
                               +:+ ": " +:+ e) (log_call card_name w)))
    as Hfirst.
  { unfold get_card_combos_cached. rewrite Hmiss.
    destruct Hfail as [->|[e ->]]; [by left|right; by exists e]. }
  assert (∀ w1, combo_cache w1 = combo_cache w →
                provider_calls w1 = provider_calls w ++ [card_name] →
                provider_calls (get_card_combos_cached edhrec card_name w1).2
                = provider_calls w ++ [card_name; card_name]
                ∧ (get_card_combos_cached edhrec card_name w1).1
                  = match edhrec (S (length (provider_calls w))) card_name with
                    | Returns combos => or_empty combos
                    | _ => []
                    end
                ∧ combo_cache (get_card_combos_cached edhrec card_name w1).2
                  = match edhrec (S (length (provider_calls w))) card_name with
                    | Returns combos =>
                        <[lower card_name := or_empty combos]> (combo_cache w)
                    | _ => combo_cache w
                    end) as Hsecond.
  { intros w1 Hcache Hcalls. unfold get_card_combos_cached.
    rewrite Hcache, Hmiss, Hcalls, length_app. simpl.
    replace (length (provider_calls w) + 1) with (S (length (provider_calls w)))
      by lia.
    destruct (edhrec (S _) card_name); simpl;
      by rewrite Hcalls, Hcache, <- app_assoc. }
  simpl. destruct Hfirst as [->|[e ->]]; simpl;
    (split; [done|]); (split; [done|]); (split; [done|]); (split; [done|]);
    by apply Hsecond.
Qed.

Lemma C2_failure_is_not_cached_witness :
  let first := get_card_combos_cached flaky_provider "Card A" fresh in
  let second := get_card_combos_cached flaky_provider "Card A" first.2 in
  combo_cache fresh !! lower "Card A" = None ∧
  flaky_provider (length (provider_calls fresh)) "Card A" = Raises "timed out" ∧
  first.1 = [] ∧
  combo_cache first.2 = combo_cache fresh ∧
  combo_cache first.2 !! lower "Card A" = None ∧
  provider_calls first.2 = provider_calls fresh ++ ["Card A"] ∧
  provider_calls second.2 = provider_calls fresh ++ ["Card A"; "Card A"] ∧
  second.1 = match flaky_provider (S (length (provider_calls fresh))) "Card A" with
             | Returns combos => or_empty combos
             | _ => []
             end ∧
  combo_cache second.2
  = match flaky_provider (S (length (provider_calls fresh))) "Card A" with
    | Returns combos => <[lower "Card A" := or_empty combos]> (combo_cache fresh)
    | _ => combo_cache fresh
    end.
Proof.
  split; [reflexivity|]. split; [reflexivity|].
  apply (C2_failure_is_not_cached flaky_provider "Card A" fresh).
  - reflexivity.
  - right. exists "timed out". reflexivity.
Defined.

(** C2 as stated fails: after a lookup of "Card A" whose attempt raises
    (and likewise one whose import fails), the cache holds no entry for
    "card a", and the second lookup reaches the provider a second time
    and returns its combo instead of an empty list. *)
Lemma C2_counterexample :
  let first := get_card_combos_cached flaky_provider "Card A" fresh in
  let second := get_card_combos_cached flaky_provider "Card A" first.2 in
  let first' := get_card_combos_cached late_provider "Card A" fresh in
  let second' := get_card_combos_cached late_provider "Card A" first'.2 in
  combo_cache fresh !! lower "Card A" = None ∧
  flaky_provider 0 "Card A" = Raises "timed out" ∧
  late_provider 0 "Card A" = ImportError ∧
  first.1 = [] ∧ first'.1 = [] ∧
  combo_cache first.2 !! lower "Card A" ≠ Some [] ∧
  combo_cache first'.2 !! lower "Card A" ≠ Some [] ∧
  second.1 = [c1_complete] ∧ second'.1 = [c1_complete] ∧
  provider_calls second.2 = ["Card A"; "Card A"] ∧
  provider_calls second'.2 = ["Card A"; "Card A"].
Proof. vm_compute. repeat split; done. Qed.

(** ** Synthesized identities *)

(** The inner loop reads the hash only through the identities. *)
Lemma classify_hash_irrelevant hash1 hash2 str_dict deck_cards m r :
  combo_id_of hash1 str_dict r = combo_id_of hash2 str_dict r →
  classify hash1 str_dict deck_cards m r = classify hash2 str_dict deck_cards m r.
Proof. intros Hid. unfold classify. by rewrite Hid. Qed.

Lemma foldl_classify_hash_irrelevant hash1 hash2 str_dict deck_cards rs m :
  (∀ r, r ∈ rs → combo_id_of hash1 str_dict r = combo_id_of hash2 str_dict r) →
  foldl (classify hash1 str_dict deck_cards) m rs
  = foldl (classify hash2 str_dict deck_cards) m rs.
Proof.
  revert m. induction rs as [|r rs IH]; intros m Hids; [done|]. simpl.
  rewrite (classify_hash_irrelevant hash1 hash2)
    by (apply Hids, list_elem_of_here).
  apply IH. intros r' Hr'. apply Hids. by apply list_elem_of_further.
Qed.

(** C3 (as the code has it): a record without an ["id"] key gets the
    identity [str(hash(str(combo_data)))], computed with the
    interpreter's own string hash.  With the hash function fixed, as it
    is within one process, the identity is the decimal rendering of the
    hash of the record's rendering (two records without id share an
    identity exactly when these hashes are equal), and two runs of the
    matcher on the same input under hash functions that agree on the
    renderings of the fetched records without id return the same results
    and leave the same world. *)
Theorem C3_identity_under_a_fixed_hash hash1 hash2 str_dict edhrec card_names w :
  (∀ r, r ∈ (fetch_all edhrec card_names w).1 →
        ComboRecord.id r = None →
        hash1 (str_dict r) = hash2 (str_dict r)) →
  (∀ r, ComboRecord.id r = None →
        combo_id_of hash1 str_dict r = pretty (hash1 (str_dict r))) ∧
  (∀ r r', ComboRecord.id r = None → ComboRecord.id r' = None →
           (combo_id_of hash1 str_dict r = combo_id_of hash1 str_dict r'
            ↔ hash1 (str_dict r) = hash1 (str_dict r'))) ∧
  find_combos_in_deck hash1 str_dict edhrec card_names w
  = find_combos_in_deck hash2 str_dict edhrec card_names w.
Proof.
  intros Hagree. split; [|split].
  - intros r Hid. unfold combo_id_of. by rewrite Hid.
  - intros r r' Hid Hid'. unfold combo_id_of. rewrite Hid, Hid'. simpl. split.
    + apply pretty_Z_inj.
    + by intros ->.
  - unfold find_combos_in_deck. rewrite !match_deck_fetch.
    rewrite (foldl_classify_hash_irrelevant hash1 hash2); [done|].
    intros r Hr. unfold combo_id_of.
    destruct (ComboRecord.id r) eqn:Hid; simpl; [done|].
    by rewrite Hagree.
Qed.

Lemma C3_identity_under_a_fixed_hash_witness :
  (∀ r, r ∈ (fetch_all anonymous_provider sample_deck fresh).1 →
        ComboRecord.id r = None →
        seeded_hash 1 (sample_str r) = seeded_hash 1 (sample_str r)) ∧
  combo_id_of (seeded_hash 1) sample_str anonymous
  = pretty (seeded_hash 1 (sample_str anonymous)) ∧
  find_combos_in_deck (seeded_hash 1) sample_str anonymous_provider sample_deck fresh
  = find_combos_in_deck (seeded_hash 1) sample_str anonymous_provider sample_deck fresh.
Proof.
  assert (∀ r, r ∈ (fetch_all anonymous_provider sample_deck fresh).1 →
               ComboRecord.id r = None →
               seeded_hash 1 (sample_str r) = seeded_hash 1 (sample_str r))
    as Hagree by reflexivity.
  split; [exact Hagree|].
  destruct (C3_identity_under_a_fixed_hash (seeded_hash 1) (seeded_hash 1) sample_str
              anonymous_provider sample_deck fresh Hagree) as (Hid & _ & Hrun).
  split; [apply Hid; reflexivity|exact Hrun].
Defined.

(** C3 as stated fails: under the hash functions of two processes (two
    seeds) the same anonymous record of the same deck gets two different
    identities, and the matcher returns two different complete combos. *)
Lemma C3_counterexample :
  let run seed := (find_combos_in_deck (seeded_hash seed) sample_str
                                       anonymous_provider sample_deck fresh).1 in
  ComboRecord.id anonymous = None ∧
  Combo.id <$> (DeckCombo.combo <$> (run 1%Z).1) = ["7478028786712072724"] ∧
  Combo.id <$> (DeckCombo.combo <$> (run 2%Z).1) = ["8644629615459223215"] ∧
  run 1%Z ≠ run 2%Z.
Proof. vm_compute. repeat split; done. Qed.

(** ** Threshold, present and missing cards *)

(** The length of [present] is the number of names the combo shares
    with the deck when the lowercased card list has no repeated name; a
    repeated name is counted once per occurrence. *)
Lemma present_counts_shared_names (deck_cards : gset string) (combo_cards : list string) :
  NoDup combo_cards →
  length (present_of deck_cards combo_cards)
  = size (list_to_set combo_cards ∩ deck_cards : gset string).
Proof.
  intros Hnodup. unfold present_of.
  rewrite <- (size_list_to_set (C := gset string)) by by apply NoDup_filter.
  f_equal. apply set_eq. intros c.
  rewrite elem_of_list_to_set, list_elem_of_filter, elem_of_intersection,
    elem_of_list_to_set.
  tauto.
Qed.

(** C4 (as the code has it): the threshold is on the length of
    [present], which counts a name once per occurrence in the combo's
    card list.  A record whose [present] list has fewer than two entries
    is skipped: the inner loop leaves both dicts unchanged on it.  For a
    card list without repeated lowercased names this is the record that
    shares fewer than two names with the deck set.  An identity all of
    whose fetched records are below the threshold is a key of neither
    dict, so that its combo is in neither returned list. *)
Theorem C4_below_threshold_skipped hash str_dict edhrec card_names w :
  let deck_cards := deck_cards_of card_names in
  let m := (match_deck hash str_dict edhrec card_names w).1 in
  (∀ r m0, length (present_of deck_cards (combo_cards_of r)) < 2 →
           classify hash str_dict deck_cards m0 r = m0) ∧
  (∀ r m0, NoDup (combo_cards_of r) →
           size (list_to_set (combo_cards_of r) ∩ deck_cards : gset string) < 2 →
           classify hash str_dict deck_cards m0 r = m0) ∧
  (∀ combo_id,
     (∀ r, r ∈ (fetch_all edhrec card_names w).1 →
           combo_id_of hash str_dict r = combo_id →
           length (present_of deck_cards (combo_cards_of r)) < 2) →
     (combo_id ∉ odict.keys (found_combos m)) ∧
     (combo_id ∉ odict.keys (potential_combos m)) ∧
     (∀ dc, dc ∈ (find_combos_in_deck hash str_dict edhrec card_names w).1.1 →
            Combo.id (DeckCombo.combo dc) ≠ combo_id)).
Proof.
  intros deck_cards m. split; [|split].
  - intros r m0. apply classify_below_threshold.
  - intros r m0 Hnodup Hsize. apply classify_below_threshold.
    by rewrite present_counts_shared_names.
  - intros combo_id Hbelow.
    assert (combo_id ∉ odict.keys (found_combos m)) as Hfound.
    { intros [dc Hin]%odict_elem_of_keys. subst m.
      rewrite match_deck_fetch in Hin. simpl in Hin.
      apply found_after in Hin as [Hin|(r & Hr & Hid & _ & Hlen & _)].
      - by apply elem_of_nil in Hin.
      - specialize (Hbelow r Hr (eq_sym Hid)). fold deck_cards in Hlen. lia. }
    split; [done|]. split.
    + intros [pc Hin]%odict_elem_of_keys. subst m.
      rewrite match_deck_fetch in Hin. simpl in Hin.
      apply potential_after in Hin as [Hin|(r & Hr & Hid & _ & Hlen & _)].
      * by apply elem_of_nil in Hin.
      * specialize (Hbelow r Hr (eq_sym Hid)). fold deck_cards in Hlen. lia.
    + intros dc Hdc Hid. rewrite find_combos_in_deck_matcher in Hdc. simpl in Hdc.
      apply odict_elem_of_values in Hdc as [k Hin].
      assert (k = combo_id) as ->.
      { rewrite match_deck_fetch in Hin. simpl in Hin.
        apply found_after in Hin as [Hin|(r & _ & -> & _ & _ & _ & ->)].
        - by apply elem_of_nil in Hin.
        - by rewrite <- Hid. }
      apply Hfound, odict_elem_of_keys. by exists dc.
Qed.

Lemma C4_below_threshold_skipped_witness :
  let deck_cards := deck_cards_of sample_deck in
  let m := (match_deck (seeded_hash 1) sample_str sample_provider sample_deck fresh).1 in
  length (present_of deck_cards (combo_cards_of c3_single)) < 2 ∧
  classify (seeded_hash 1) sample_str deck_cards
           (mkMatcher odict.empty odict.empty) c3_single
  = mkMatcher odict.empty odict.empty ∧
  ("c3" ∉ odict.keys (found_combos m)) ∧
  ("c3" ∉ odict.keys (potential_combos m)).
Proof.
  pose proof (C4_below_threshold_skipped (seeded_hash 1) sample_str sample_provider
                sample_deck fresh) as (Hstep & _ & Hrun).
  assert (length (present_of (deck_cards_of sample_deck) (combo_cards_of c3_single)) < 2)
    as Hlen by (vm_compute; lia).
  split; [exact Hlen|]. split.
  - apply Hstep. exact Hlen.
  - assert (∀ r, r ∈ (fetch_all sample_provider sample_deck fresh).1 →
                 combo_id_of (seeded_hash 1) sample_str r = "c3" →
                 length (present_of (deck_cards_of sample_deck) (combo_cards_of r)) < 2)
      as Hbelow.
    { intros r Hr Hid.
      assert (r = c1_complete ∨ r = c2_partial ∨ r = c3_single) as [->|[->| ->]].
      { change (r ∈ [c1_complete; c2_partial; c3_single]) in Hr.
        rewrite !elem_of_cons, elem_of_nil in Hr. tauto. }
      - discriminate Hid.
      - discriminate Hid.
      - vm_compute. lia. }
    destruct (Hrun "c3" Hbelow) as (Hf & Hp & _). by split.
Defined.

(** C4 as stated fails: the card list "Card A", "card a" shares one
    lowercased name with the deck of the single card "Card A", yet its
    [present] list has two entries and nothing is missing, so the record
    is not skipped: the matcher returns it as a complete combo. *)
Lemma C4_counterexample :
  let deck_cards := deck_cards_of ["Card A"] in
  size (list_to_set (combo_cards_of doubled) ∩ deck_cards : gset string) = 1 ∧
  present_of deck_cards (combo_cards_of doubled) = ["card a"; "card a"] ∧
  missing_of deck_cards (combo_cards_of doubled) = [] ∧
  classify (seeded_hash 1) sample_str deck_cards
           (mkMatcher odict.empty odict.empty) doubled
  ≠ mkMatcher odict.empty odict.empty ∧
  (find_combos_in_deck (seeded_hash 1) sample_str doubled_provider
                       ["Card A"] fresh).1
  = ([make_deck_combo "dup" doubled ["card a"; "card a"]], []).
Proof. vm_compute. repeat split; done. Qed.

(** Membership in [deck_cards] in terms of the request's card names. *)
Lemma elem_of_deck_cards_of (c : string) (card_names : list string) :
  c ∈ deck_cards_of card_names ↔ ∃ n, n ∈ card_names ∧ c = lower n.
Proof.
  unfold deck_cards_of. rewrite elem_of_list_to_set, list_elem_of_fmap.
  split; intros (n & H1 & H2); by exists n.
Qed.

(** C5: the record's card list is lowercased; [present] holds exactly
    the lowercased combo cards that are the lowercase of some deck card,
    [missing] exactly those that are not, both in the combo's order and
    together all of the combo's cards; every returned entry carries the
    [present] and [missing] of a fetched record with a non-empty card
    list; a record whose card list is empty or absent leaves both dicts
    unchanged. *)
Theorem C5_present_and_missing hash str_dict edhrec card_names w :
  let deck_cards := deck_cards_of card_names in
  let fetched := (fetch_all edhrec card_names w).1 in
  let results := (find_combos_in_deck hash str_dict edhrec card_names w).1 in
  (∀ r,
     let combo_cards := lower <$> default [] (ComboRecord.cards r) in
     let present := present_of deck_cards (combo_cards_of r) in
     let missing := missing_of deck_cards (combo_cards_of r) in
     combo_cards_of r = combo_cards ∧
     present `sublist_of` combo_cards ∧
     missing `sublist_of` combo_cards ∧
     present ++ missing ≡ₚ combo_cards ∧
     (∀ c, c ∈ present ↔ c ∈ combo_cards ∧ ∃ n, n ∈ card_names ∧ c = lower n) ∧
     (∀ c, c ∈ missing ↔ c ∈ combo_cards ∧ ∀ n, n ∈ card_names → c ≠ lower n)) ∧
  (∀ dc, dc ∈ results.1 →
         ∃ r, r ∈ fetched ∧ default [] (ComboRecord.cards r) ≠ [] ∧
              DeckCombo.present_cards dc = present_of deck_cards (combo_cards_of r) ∧
              missing_of deck_cards (combo_cards_of r) = []) ∧
  (∀ pc, pc ∈ results.2 →
         ∃ r, r ∈ fetched ∧ default [] (ComboRecord.cards r) ≠ [] ∧
              PotentialCombo.cards pc = present_of deck_cards (combo_cards_of r) ∧
              PotentialCombo.missing_pieces pc
              = missing_of deck_cards (combo_cards_of r)) ∧
  (∀ m r, default [] (ComboRecord.cards r) = [] →
          classify hash str_dict deck_cards m r = m).
Proof.
  intros deck_cards fetched results.
  assert (∀ r, combo_cards_of r ≠ [] → default [] (ComboRecord.cards r) ≠ [])
    as Hnonempty.
  { intros r Hne Hnil. apply Hne. unfold combo_cards_of. by rewrite Hnil. }
  split; [|split; [|split]].
  - intros r combo_cards present missing.
    split; [done|]. split; [apply sublist_filter|]. split; [apply sublist_filter|].
    split; [apply filter_app_complement|]. split.
    + intros c. subst present. unfold present_of.
      rewrite list_elem_of_filter. subst deck_cards.
      rewrite elem_of_deck_cards_of. unfold combo_cards_of. tauto.
    + intros c. subst missing. unfold missing_of.
      rewrite list_elem_of_filter. subst deck_cards.
      rewrite elem_of_deck_cards_of. unfold combo_cards_of. split.
      * intros [Hnot Hin]. split; [done|]. intros n Hn ->. apply Hnot. by exists n.
      * intros [Hin Hnot]. split; [|done]. intros (n & Hn & ->). by apply (Hnot n).
  - intros dc Hdc. subst results.
    rewrite find_combos_in_deck_matcher in Hdc. simpl in Hdc.
    apply odict_elem_of_values in Hdc as [k Hin].
    rewrite match_deck_fetch in Hin. simpl in Hin.
    apply found_after in Hin as [Hin|(r & Hr & _ & Hc & _ & Hm & ->)].
    + by apply elem_of_nil in Hin.
    + exists r. auto.
  - intros pc Hpc. subst results.
    rewrite find_combos_in_deck_matcher in Hpc. simpl in Hpc.
    apply odict_elem_of_values in Hpc as [k Hin].
    rewrite match_deck_fetch in Hin. simpl in Hin.
    apply potential_after in Hin as [Hin|(r & Hr & _ & Hc & _ & Hm & ->)].
    + by apply elem_of_nil in Hin.
    + exists r. auto.
  - intros m r Hnil. apply classify_no_cards. unfold combo_cards_of. by rewrite Hnil.
Qed.

(** C6: every potential combo the matcher returns was built from a
    fetched record, and its description is the record's ["result"] text,
    or the ["description"] text when ["result"] is absent, or the text
    "Unknown combo" when both are absent. *)
Theorem C6_potential_description hash str_dict edhrec card_names w pc :
  pc ∈ (find_combos_in_deck hash str_dict edhrec card_names w).1.2 →
  ∃ r, r ∈ (fetch_all edhrec card_names w).1 ∧
       PotentialCombo.cards pc
       = present_of (deck_cards_of card_names) (combo_cards_of r) ∧
       PotentialCombo.missing_pieces pc
       = missing_of (deck_cards_of card_names) (combo_cards_of r) ∧
       PotentialCombo.description pc
       = match ComboRecord.result r, ComboRecord.description r with
         | Some result_text, _ => result_text
         | None, Some description_text => description_text
         | None, None => "Unknown combo"
         end.
Proof.
  intros Hpc. rewrite find_combos_in_deck_matcher in Hpc. simpl in Hpc.
  apply odict_elem_of_values in Hpc as [k Hin].
  rewrite match_deck_fetch in Hin. simpl in Hin.
  apply potential_after in Hin as [Hin|(r & Hr & _ & _ & _ & _ & ->)].
  - by apply elem_of_nil in Hin.
  - exists r. do 3 (split; [done|]). simpl. unfold potential_description.
    by destruct (ComboRecord.result r), (ComboRecord.description r).
Qed.

Lemma C6_potential_description_witness :
  PotentialCombo.mk ["card a"; "card b"] ["card d"] "three cards"
  ∈ (find_combos_in_deck (seeded_hash 1) sample_str sample_provider
                         sample_deck fresh).1.2 ∧
  ∃ r, r ∈ (fetch_all sample_provider sample_deck fresh).1 ∧
       ["card a"; "card b"]
       = present_of (deck_cards_of sample_deck) (combo_cards_of r) ∧
       ["card d"]
       = missing_of (deck_cards_of sample_deck) (combo_cards_of r) ∧
       "three cards"
       = match ComboRecord.result r, ComboRecord.description r with
         | Some result_text, _ => result_text
         | None, Some description_text => description_text
         | None, None => "Unknown combo"
         end.
Proof.
  assert (PotentialCombo.mk ["card a"; "card b"] ["card d"] "three cards"
          ∈ (find_combos_in_deck (seeded_hash 1) sample_str sample_provider
                                 sample_deck fresh).1.2) as Hin.
  { vm_compute. apply list_elem_of_here. }
  split; [exact Hin|].
  apply (C6_potential_description (seeded_hash 1) sample_str sample_provider
           sample_deck fresh _ Hin).
Defined.

(** C7: every DeckCombo in the matcher's complete-results list has an
    empty [missing_cards] and [is_complete] set, whatever the deck and
    whatever the provider answers. *)
Theorem C7_complete_has_nothing_missing hash str_dict edhrec card_names w dc :
  dc ∈ (find_combos_in_deck hash str_dict edhrec card_names w).1.1 →
  DeckCombo.missing_cards dc = [] ∧ DeckCombo.is_complete dc = true.
Proof.
  intros Hdc. rewrite find_combos_in_deck_matcher in Hdc. simpl in Hdc.
  apply odict_elem_of_values in Hdc as [k Hin].
  rewrite match_deck_fetch in Hin. simpl in Hin.
  apply found_after in Hin as [Hin|(r & _ & _ & _ & _ & _ & ->)].
  - by apply elem_of_nil in Hin.
  - done.
Qed.

Lemma C7_complete_has_nothing_missing_witness :
  make_deck_combo "c1" c1_complete ["card a"; "card b"]
  ∈ (find_combos_in_deck (seeded_hash 1) sample_str sample_provider
                         sample_deck fresh).1.1 ∧
  DeckCombo.missing_cards (make_deck_combo "c1" c1_complete ["card a"; "card b"]) = []
  ∧ DeckCombo.is_complete (make_deck_combo "c1" c1_complete ["card a"; "card b"])
    = true.
Proof.
  assert (make_deck_combo "c1" c1_complete ["card a"; "card b"]
          ∈ (find_combos_in_deck (seeded_hash 1) sample_str sample_provider
                                 sample_deck fresh).1.1) as Hin.
  { vm_compute. apply list_elem_of_here. }
  split; [exact Hin|].
  apply (C7_complete_has_nothing_missing (seeded_hash 1) sample_str sample_provider
           sample_deck fresh _ Hin).
Defined.

Lemma C5_present_and_missing_witness :
  make_deck_combo "c1" c1_complete ["card a"; "card b"]
  ∈ (find_combos_in_deck (seeded_hash 1) sample_str sample_provider
                         sample_deck fresh).1.1 ∧
  ∃ r, r ∈ (fetch_all sample_provider sample_deck fresh).1 ∧
       default [] (ComboRecord.cards r) ≠ [] ∧
       ["card a"; "card b"]
       = present_of (deck_cards_of sample_deck) (combo_cards_of r) ∧
       missing_of (deck_cards_of sample_deck) (combo_cards_of r) = [].
Proof.
  assert (make_deck_combo "c1" c1_complete ["card a"; "card b"]
          ∈ (find_combos_in_deck (seeded_hash 1) sample_str sample_provider
                                 sample_deck fresh).1.1) as Hin.
  { vm_compute. apply list_elem_of_here. }
  split; [exact Hin|].
  destruct (C5_present_and_missing (seeded_hash 1) sample_str sample_provider
              sample_deck fresh) as (_ & Hcomplete & _).
  apply (Hcomplete _ Hin).
Defined.

(** ** The request handler *)

(** The handler on a request that passes validation. *)
Lemma check_combos_valid hash str_dict edhrec now request w :
  ComboRequest.cards request ≠ [] →
  length (ComboRequest.cards request) ≤ 200 →
  let w1 := (time_time now w).2 in
  let found := find_combos_in_deck hash str_dict edhrec (ComboRequest.cards request) w1 in
  check_combos hash str_dict edhrec now request w
  = (inr (ComboResponse.mk
            found.1.1
            (take 20 found.1.2)
            (length (ComboRequest.cards request))
            (now (clock_reads found.2) - now (clock_reads w))%Z),
     (time_time now found.2).2).
Proof.
  intros Hne Hlen. unfold check_combos.
  destruct (ComboRequest.cards request) as [|c cs] eqn:Hcards; [done|].
  rewrite decide_False by lia. simpl.
  destruct (find_combos_in_deck _ _ _ _ _) as [[complete potential] w2]. done.
Qed.

(** C8: in every successful response, [potential_combos] is the first 20
    entries of the matcher's potential results, in their order, so it has
    at most 20 entries; [combos] is the matcher's complete list in full. *)
Theorem C8_potential_truncated hash str_dict edhrec now request w response w' :
  check_combos hash str_dict edhrec now request w = (inr response, w') →
  let found := (find_combos_in_deck hash str_dict edhrec
                  (ComboRequest.cards request) (time_time now w).2).1 in
  ComboResponse.potential_combos response = take 20 found.2 ∧
  length (ComboResponse.potential_combos response) ≤ 20 ∧
  ComboResponse.combos response = found.1 ∧
  length (ComboResponse.combos response) = length found.1.
Proof.
  intros Hok found.
  assert (ComboRequest.cards request ≠ []) as Hne.
  { intros Hnil. unfold check_combos in Hok. by rewrite Hnil in Hok. }
  assert (length (ComboRequest.cards request) ≤ 200) as Hlen.
  { destruct (decide (200 < length (ComboRequest.cards request))) as [Hgt|]; [|lia].
    unfold check_combos in Hok.
    destruct (ComboRequest.cards request); [done|].
    by rewrite decide_True in Hok. }
  rewrite check_combos_valid in Hok by done.
  injection Hok as <- _. simpl.
  split; [done|]. split; [|done].
  rewrite length_take. lia.
Qed.

Lemma C8_potential_truncated_witness :
  ∃ response,
    (check_combos (seeded_hash 1) sample_str many_partial sample_now
                  sample_request fresh).1 = inr response ∧
    length (find_combos_in_deck (seeded_hash 1) sample_str many_partial
              sample_deck (time_time sample_now fresh).2).1.2 = 42 ∧
    length (ComboResponse.potential_combos response) ≤ 20.
Proof.
  destruct (check_combos (seeded_hash 1) sample_str many_partial sample_now
                         sample_request fresh) as [[e|response] w'] eqn:Hrun.
  - exfalso. vm_compute in Hrun. discriminate Hrun.
  - exists response. split; [reflexivity|]. split; [vm_compute; reflexivity|].
    apply (C8_potential_truncated (seeded_hash 1) sample_str many_partial sample_now
             sample_request fresh response w' Hrun).
Defined.

(** C9: a request with an empty card list and a request with more than
    200 cards are both rejected with status 400, and the world is
    returned as it was received: no lookup is made, the matcher is not
    run.  A request with 1 to 200 cards passes validation and gets a
    response. *)
Theorem C9_validation hash str_dict edhrec now request w :
  (ComboRequest.cards request = [] →
   check_combos hash str_dict edhrec now request w
   = (inl (mkHTTPException 400 "No cards provided"), w)) ∧
  (200 < length (ComboRequest.cards request) →
   check_combos hash str_dict edhrec now request w
   = (inl (mkHTTPException 400 "Too many cards (max 200)"), w)) ∧
  (1 ≤ length (ComboRequest.cards request) ≤ 200 →
   ∃ response w',
     check_combos hash str_dict edhrec now request w = (inr response, w') ∧
     ComboResponse.analyzed_cards response = length (ComboRequest.cards request)).
Proof.
  split; [|split].
  - intros Hnil. unfold check_combos. by rewrite Hnil.
  - intros Hlen. unfold check_combos.
    destruct (ComboRequest.cards request); [simpl in Hlen; lia|].
    by rewrite decide_True.
  - intros [Hlo Hhi]. eexists _, _. split.
    + apply check_combos_valid; [|done].
      intros Hnil. rewrite Hnil in Hlo. simpl in Hlo. lia.
    + done.
Qed.

Lemma C9_validation_witness :
  (ComboRequest.cards (ComboRequest.mk [] None) = [] ∧
   check_combos (seeded_hash 1) sample_str sample_provider sample_now
                (ComboRequest.mk [] None) fresh
   = (inl (mkHTTPException 400 "No cards provided"), fresh)) ∧
  (200 < length (ComboRequest.cards (ComboRequest.mk (replicate 201 "Card A") None)) ∧
   check_combos (seeded_hash 1) sample_str sample_provider sample_now
                (ComboRequest.mk (replicate 201 "Card A") None) fresh
   = (inl (mkHTTPException 400 "Too many cards (max 200)"), fresh)) ∧
  (1 ≤ length (ComboRequest.cards sample_request) ≤ 200 ∧
   ∃ response w',
     check_combos (seeded_hash 1) sample_str sample_provider sample_now
                  sample_request fresh = (inr response, w') ∧
     ComboResponse.analyzed_cards response
     = length (ComboRequest.cards sample_request)).
Proof.
  split; [|split].
  - split; [reflexivity|].
    apply (C9_validation (seeded_hash 1) sample_str sample_provider sample_now
             (ComboRequest.mk [] None) fresh).
    reflexivity.
  - assert (200 < length (ComboRequest.cards
                            (ComboRequest.mk (replicate 201 "Card A") None))) as Hlen.
    { cbn [ComboRequest.cards]. rewrite length_replicate. lia. }
    split; [exact Hlen|].
    apply (C9_validation (seeded_hash 1) sample_str sample_provider sample_now
             (ComboRequest.mk (replicate 201 "Card A") None) fresh).
    exact Hlen.
  - assert (1 ≤ length (ComboRequest.cards sample_request) ≤ 200) as Hlen.
    { simpl. lia. }
    split; [exact Hlen|].
    apply (C9_validation (seeded_hash 1) sample_str sample_provider sample_now
             sample_request fresh).
    exact Hlen.
Defined.

(** C10: the handler never reads [commander]: two requests with the same
    card list, handled in the same world, give the same outcome, be it an
    error or a response with the same [combos], [potential_combos] and
    [analyzed_cards], and leave the same world. *)
Theorem C10_commander_ignored hash str_dict edhrec now request1 request2 w :
  ComboRequest.cards request1 = ComboRequest.cards request2 →
  check_combos hash str_dict edhrec now request1 w
  = check_combos hash str_dict edhrec now request2 w.
Proof. intros Hcards. unfold check_combos. by rewrite Hcards. Qed.

Lemma C10_commander_ignored_witness :
  ComboRequest.cards sample_request
  = ComboRequest.cards (ComboRequest.mk sample_deck None) ∧
  ComboRequest.commander sample_request
  ≠ ComboRequest.commander (ComboRequest.mk sample_deck None) ∧
  check_combos (seeded_hash 1) sample_str sample_provider sample_now sample_request fresh
  = check_combos (seeded_hash 1) sample_str sample_provider sample_now
                 (ComboRequest.mk sample_deck None) fresh.
Proof.
  split; [reflexivity|]. split; [discriminate|].
  apply (C10_commander_ignored (seeded_hash 1) sample_str sample_provider sample_now
           sample_request (ComboRequest.mk sample_deck None) fresh).
  reflexivity.
Defined.


(** * Further properties of the code *)

(** ** The lookup cache, one lookup at a time *)

Lemma get_card_combos_cached_looked_up edhrec card_name w :
  looked_up edhrec card_name w (get_card_combos_cached edhrec card_name w).
Proof.
  unfold get_card_combos_cached.
  destruct (combo_cache w !! lower card_name) as [stored|] eqn:Hcache;
    [by constructor|].
  destruct (edhrec (length (provider_calls w)) card_name) as [|e|combos] eqn:Hout.
  - by constructor.
  - by constructor.
  - exact (looked_up_returns edhrec card_name w combos Hcache Hout).
Qed.

(** A lookup never changes or removes an entry of the cache. *)
Lemma lookup_keeps_entries edhrec card_name w k stored :
  combo_cache w !! k = Some stored →
  combo_cache (get_card_combos_cached edhrec card_name w).2 !! k = Some stored.
Proof.
  intros Hk.
  destruct (get_card_combos_cached_looked_up edhrec card_name w)
    as [|combos Hmiss _| |]; simpl; try done.
  rewrite lookup_insert_ne; [done|]. intros <-. congruence.
Qed.

Lemma fetch_all_keeps_entries edhrec card_names w k stored :
  combo_cache w !! k = Some stored →
  combo_cache (fetch_all edhrec card_names w).2 !! k = Some stored.
Proof.
  revert w. induction card_names as [|card_name rest IH]; intros w Hk; [done|].
  simpl.
  pose proof (lookup_keeps_entries edhrec card_name w k stored Hk) as Hk1.
  destruct (get_card_combos_cached edhrec card_name w) as [card_combos w1].
  specialize (IH w1 Hk1).
  by destruct (fetch_all edhrec rest w1) as [more w2].
Qed.

(** The world the matcher leaves is the world after the lookups. *)
Lemma find_combos_in_deck_world hash str_dict edhrec card_names w :
  (find_combos_in_deck hash str_dict edhrec card_names w).2
  = (fetch_all edhrec card_names w).2.
Proof.
  unfold find_combos_in_deck. rewrite match_deck_fetch. done.
Qed.

(** The results of the matcher are those of the inner loop over the
    fetched records. *)
Lemma find_combos_in_deck_results hash str_dict edhrec card_names w :
  (find_combos_in_deck hash str_dict edhrec card_names w).1
  = let m := foldl (classify hash str_dict (deck_cards_of card_names))
                   (mkMatcher odict.empty odict.empty)
                   (fetch_all edhrec card_names w).1 in
    (odict.values (found_combos m), odict.values (potential_combos m)).
Proof.
  rewrite find_combos_in_deck_matcher, match_deck_fetch. done.
Qed.

Lemma find_combos_in_deck_eq hash str_dict edhrec card_names w :
  find_combos_in_deck hash str_dict edhrec card_names w
  = ((find_combos_in_deck hash str_dict edhrec card_names w).1,
     (fetch_all edhrec card_names w).2).
Proof.
  rewrite <- (find_combos_in_deck_world hash str_dict).
  by destruct (find_combos_in_deck hash str_dict edhrec card_names w).
Qed.

(** With every card of the deck in the cache, the lookups return the
    cached lists and leave the world alone. *)
Lemma fetch_all_warm edhrec card_names w :
  (∀ n, n ∈ card_names → is_Some (combo_cache w !! lower n)) →
  fetch_all edhrec card_names w = (cached_records (combo_cache w) card_names, w).
Proof.
  induction card_names as [|card_name rest IH]; intros Hwarm; [done|].
  simpl. unfold get_card_combos_cached.
  destruct (Hwarm card_name) as [stored Hstored]; [apply list_elem_of_here|].
  rewrite Hstored, IH.
  - unfold cached_records. simpl. by rewrite Hstored.
  - intros n Hn. apply Hwarm. by apply list_elem_of_further.
Qed.

(** When no attempt fails, what was fetched is what the cache holds
    afterwards, and every card of the deck is cached. *)
Lemma fetch_all_returns edhrec card_names w :
  (∀ k n, ∃ combos, edhrec k n = Returns combos) →
  (fetch_all edhrec card_names w).1
  = cached_records (combo_cache (fetch_all edhrec card_names w).2) card_names
  ∧ ∀ n, n ∈ card_names →
         is_Some (combo_cache (fetch_all edhrec card_names w).2 !! lower n).
Proof.
  intros Hreturns. revert w.
  induction card_names as [|card_name rest IH]; intros w.
  { split; [done|]. intros n Hn. by apply elem_of_nil in Hn. }
  simpl.
  assert (combo_cache (get_card_combos_cached edhrec card_name w).2
          !! lower card_name
          = Some (get_card_combos_cached edhrec card_name w).1) as Hstored.
  { destruct (get_card_combos_cached_looked_up edhrec card_name w)
      as [|combos _ _|_ Hfail|e _ Hfail]; simpl.
    - done.
    - apply lookup_insert_eq.
    - destruct (Hreturns (length (provider_calls w)) card_name). congruence.
    - destruct (Hreturns (length (provider_calls w)) card_name). congruence. }
  destruct (get_card_combos_cached edhrec card_name w) as [card_combos w1].
  simpl in Hstored.
  destruct (IH w1) as [Hfetched Hcached].
  pose proof (fetch_all_keeps_entries edhrec rest w1 _ _ Hstored) as Hkept.
  destruct (fetch_all edhrec rest w1) as [more w2]. simpl in *.
  split.
  - unfold cached_records. simpl. rewrite Hkept. simpl.
    by rewrite Hfetched.
  - intros n [->|Hn]%elem_of_cons; [by eexists|by apply Hcached].
Qed.

(** The attempts the lookups of a deck make: one for each card that is
    not in the cache when its turn comes, under the card's own name. *)
Lemma fetch_all_attempts edhrec card_names w :
  ∃ missed,
    missed `sublist_of` card_names ∧
    provider_calls (fetch_all edhrec card_names w).2 = provider_calls w ++ missed ∧
    (∀ n, n ∈ missed → combo_cache w !! lower n = None) ∧
    clock_reads (fetch_all edhrec card_names w).2 = clock_reads w ∧
    stdout w `prefix_of` stdout (fetch_all edhrec card_names w).2.
Proof.
  revert w. induction card_names as [|card_name rest IH]; intros w.
  { exists []. simpl. rewrite app_nil_r. do 2 (split; [done|]).
    split; [by intros n Hn%elem_of_nil|done]. }
  simpl.
  pose proof (get_card_combos_cached_looked_up edhrec card_name w) as Hlook.
  pose proof (λ k stored, lookup_keeps_entries edhrec card_name w k stored) as Hkeep.
  destruct (get_card_combos_cached edhrec card_name w) as [card_combos w1].
  destruct (IH w1) as (missed & Hsub & Hcalls & Hmiss & Hclock & Hout).
  destruct (fetch_all edhrec rest w1) as [more w2]. simpl in *.
  assert (∀ n, n ∈ missed → combo_cache w !! lower n = None) as Hmiss'.
  { intros n Hn. specialize (Hmiss n Hn).
    destruct (combo_cache w !! lower n) as [stored|] eqn:Hw; [|done].
    rewrite (Hkeep _ _ Hw) in Hmiss. done. }
  inversion Hlook as [stored Hhit|combos Hnone Hret|Hnone Hfail|e Hnone Hfail]; subst.
  - exists missed. split; [by apply sublist_cons|]. done.
  - exists (card_name :: missed). split; [by apply sublist_skip|].
    simpl in *. rewrite Hcalls, <- app_assoc. split; [done|]. split; [|done].
    intros n [->|Hn]%elem_of_cons; [done|by apply Hmiss'].
  - exists (card_name :: missed). split; [by apply sublist_skip|].
    simpl in *. rewrite Hcalls, <- app_assoc. split; [done|]. split; [|done].
    intros n [->|Hn]%elem_of_cons; [done|by apply Hmiss'].
  - exists (card_name :: missed). split; [by apply sublist_skip|].
    simpl in *. rewrite Hcalls, <- app_assoc. split; [done|]. split.
    { intros n [->|Hn]%elem_of_cons; [done|by apply Hmiss']. }
    split; [done|]. etrans; [|exact Hout]. by apply prefix_app_r.
Qed.

(** With a cold cache for the deck and a provider whose every attempt
    fails, the lookups fetch nothing, leave the cache as it was, and make
    one attempt per card. *)
Lemma fetch_all_fails edhrec card_names w :
  (∀ n, n ∈ card_names → combo_cache w !! lower n = None) →
  (∀ k n, edhrec k n = ImportError ∨ ∃ e, edhrec k n = Raises e) →
  (fetch_all edhrec card_names w).1 = [] ∧
  combo_cache (fetch_all edhrec card_names w).2 = combo_cache w ∧
  provider_calls (fetch_all edhrec card_names w).2 = provider_calls w ++ card_names ∧
  clock_reads (fetch_all edhrec card_names w).2 = clock_reads w.
Proof.
  intros Hcold Hfails. revert w Hcold.
  induction card_names as [|card_name rest IH]; intros w Hcold.
  { simpl. by rewrite app_nil_r. }
  simpl.
  assert ((get_card_combos_cached edhrec card_name w).1 = [] ∧
          combo_cache (get_card_combos_cached edhrec card_name w).2 = combo_cache w ∧
          provider_calls (get_card_combos_cached edhrec card_name w).2
          = provider_calls w ++ [card_name] ∧
          clock_reads (get_card_combos_cached edhrec card_name w).2 = clock_reads w)
    as (Hres & Hcache & Hcalls & Hclock).
  { unfold get_card_combos_cached.
    rewrite (Hcold card_name) by apply list_elem_of_here.
    by destruct (Hfails (length (provider_calls w)) card_name) as [->|[e ->]]. }
  destruct (get_card_combos_cached edhrec card_name w) as [card_combos w1].
  simpl in *. subst card_combos.
  destruct (IH w1) as (Hres' & Hcache' & Hcalls' & Hclock').
  { intros n Hn. rewrite Hcache. apply Hcold. by apply list_elem_of_further. }
  destruct (fetch_all edhrec rest w1) as [more w2]. simpl in *. subst more.
  split; [done|]. split; [congruence|]. split; [|congruence].
  by rewrite Hcalls', Hcalls, <- app_assoc.
Qed.

(** X1: once the provider has answered for a card, the answer (an empty
    list when it is [None] or empty) is stored under the lowercased name,
    and a later lookup of any name with the same lowercase form returns
    it without a further attempt and without changing the world. *)
Theorem X1_answer_is_reused_whatever_the_case edhrec card_name other_name w combos :
  combo_cache w !! lower card_name = None →
  edhrec (length (provider_calls w)) card_name = Returns combos →
  lower other_name = lower card_name →
  let first := get_card_combos_cached edhrec card_name w in
  first.1 = or_empty combos ∧
  combo_cache first.2 !! lower card_name = Some (or_empty combos) ∧
  provider_calls first.2 = provider_calls w ++ [card_name] ∧
  get_card_combos_cached edhrec other_name first.2 = (or_empty combos, first.2).
Proof.
  intros Hmiss Hret Hlower first.
  assert (first = (or_empty combos,
                   set_cache (<[lower card_name := or_empty combos]> (combo_cache w))
                             (log_call card_name w))) as ->.
  { subst first. unfold get_card_combos_cached. by rewrite Hmiss, Hret. }
  simpl. rewrite lookup_insert_eq. do 3 (split; [done|]).
  unfold get_card_combos_cached. simpl. by rewrite Hlower, lookup_insert_eq.
Qed.

Lemma X1_answer_is_reused_whatever_the_case_witness :
  let first := get_card_combos_cached sample_provider "Card A" fresh in
  combo_cache fresh !! lower "Card A" = None ∧
  lower "CARD a" = lower "Card A" ∧
  first.1 = [c1_complete; c2_partial; c3_single] ∧
  get_card_combos_cached sample_provider "CARD a" first.2
  = ([c1_complete; c2_partial; c3_single], first.2).
Proof.
  intros first.
  assert (combo_cache fresh !! lower "Card A" = None) as Hmiss by reflexivity.
  assert (lower "CARD a" = lower "Card A") as Hlower by reflexivity.
  split; [exact Hmiss|]. split; [exact Hlower|].
  destruct (X1_answer_is_reused_whatever_the_case sample_provider "Card A" "CARD a"
              fresh (Some [c1_complete; c2_partial; c3_single])
              Hmiss eq_refl Hlower) as (Hfirst & _ & _ & Hsecond).
  split; [exact Hfirst|exact Hsecond].
Defined.

(** X2: an entry of the cache is never changed or removed: not by a
    lookup, not by a run of the matcher, not by the handling of a
    request. *)
Theorem X2_cache_entries_are_kept hash str_dict edhrec now w k stored :
  combo_cache w !! k = Some stored →
  (∀ card_name,
     combo_cache (get_card_combos_cached edhrec card_name w).2 !! k = Some stored) ∧
  (∀ card_names,
     combo_cache (find_combos_in_deck hash str_dict edhrec card_names w).2 !! k
     = Some stored) ∧
  (∀ request,
     combo_cache (check_combos hash str_dict edhrec now request w).2 !! k
     = Some stored).
Proof.
  intros Hk. split; [|split].
  - intros card_name. by apply lookup_keeps_entries.
  - intros card_names. rewrite find_combos_in_deck_world.
    by apply fetch_all_keeps_entries.
  - intros request.
    destruct (decide (ComboRequest.cards request = [])) as [Hnil|Hne].
    { unfold check_combos. by rewrite Hnil. }
    destruct (decide (200 < length (ComboRequest.cards request))) as [Hgt|Hle].
    { unfold check_combos. destruct (ComboRequest.cards request); [done|].
      by rewrite decide_True. }
    rewrite check_combos_valid by (done || lia). simpl.
    rewrite find_combos_in_deck_world.
    by apply fetch_all_keeps_entries.
Qed.

Lemma X2_cache_entries_are_kept_witness :
  combo_cache warm !! "card a" = Some [c1_complete; c2_partial; c3_single] ∧
  combo_cache (check_combos (seeded_hash 1) sample_str failing_provider sample_now
                            (ComboRequest.mk ["Card A"; "Card Q"] None) warm).2
  !! "card a" = Some [c1_complete; c2_partial; c3_single].
Proof.
  assert (combo_cache warm !! "card a" = Some [c1_complete; c2_partial; c3_single])
    as Hk by (vm_compute; reflexivity).
  split; [exact Hk|].
  destruct (X2_cache_entries_are_kept (seeded_hash 1) sample_str failing_provider
              sample_now warm "card a" _ Hk) as (_ & _ & Hhandler).
  apply Hhandler.
Defined.

(** X3: a run of the matcher makes at most one attempt per entry of the
    card list, in the order of the list, each under the card's own name
    and only for a card that is not in the cache; it does not read the
    clock and only adds to what was printed. *)
Theorem X3_one_attempt_per_uncached_card hash str_dict edhrec card_names w :
  let w' := (find_combos_in_deck hash str_dict edhrec card_names w).2 in
  ∃ missed,
    missed `sublist_of` card_names ∧
    provider_calls w' = provider_calls w ++ missed ∧
    (∀ n, n ∈ missed → combo_cache w !! lower n = None) ∧
    clock_reads w' = clock_reads w ∧
    stdout w `prefix_of` stdout w'.
Proof.
  intros w'. subst w'. rewrite find_combos_in_deck_world.
  apply fetch_all_attempts.
Qed.

(** X4: when every card of the deck has an entry in the cache, the
    matcher works from the cache alone: it fetches the cached lists,
    leaves the world as it was, and returns the same whatever the
    provider would do. *)
Theorem X4_warm_cache_needs_no_provider hash str_dict edhrec edhrec' card_names w :
  (∀ n, n ∈ card_names → is_Some (combo_cache w !! lower n)) →
  (fetch_all edhrec card_names w).1 = cached_records (combo_cache w) card_names ∧
  (find_combos_in_deck hash str_dict edhrec card_names w).2 = w ∧
  find_combos_in_deck hash str_dict edhrec card_names w
  = find_combos_in_deck hash str_dict edhrec' card_names w.
Proof.
  intros Hwarm. split; [|split].
  - by rewrite fetch_all_warm.
  - by rewrite find_combos_in_deck_world, fetch_all_warm.
  - rewrite (find_combos_in_deck_eq _ _ edhrec), (find_combos_in_deck_eq _ _ edhrec').
    rewrite !find_combos_in_deck_results.
    by rewrite (fetch_all_warm edhrec), (fetch_all_warm edhrec').
Qed.

Lemma sample_deck_is_warm :
  ∀ n, n ∈ sample_deck → is_Some (combo_cache warm !! lower n).
Proof.
  intros n Hn. unfold sample_deck in Hn.
  rewrite !elem_of_cons, elem_of_nil in Hn.
  destruct Hn as [->|[->|[->|[]]]]; vm_compute; by eexists.
Defined.

Lemma X4_warm_cache_needs_no_provider_witness :
  (∀ n, n ∈ sample_deck → is_Some (combo_cache warm !! lower n)) ∧
  (find_combos_in_deck (seeded_hash 1) sample_str sample_provider sample_deck warm).2
  = warm ∧
  find_combos_in_deck (seeded_hash 1) sample_str sample_provider sample_deck warm
  = find_combos_in_deck (seeded_hash 1) sample_str failing_provider sample_deck warm.
Proof.
  split; [exact sample_deck_is_warm|].
  destruct (X4_warm_cache_needs_no_provider (seeded_hash 1) sample_str
              sample_provider failing_provider sample_deck warm sample_deck_is_warm)
    as (_ & Hworld & Hsame).
  split; [exact Hworld|exact Hsame].
Defined.

(** X5: when no attempt fails, a second run of the matcher on the same
    deck, in the world the first run left, returns the same two lists
    and leaves that world unchanged. *)
Theorem X5_second_run_repeats_the_first hash str_dict edhrec card_names w :
  (∀ k n, ∃ combos, edhrec k n = Returns combos) →
  let first := find_combos_in_deck hash str_dict edhrec card_names w in
  find_combos_in_deck hash str_dict edhrec card_names first.2 = first.
Proof.
  intros Hreturns first. subst first.
  destruct (fetch_all_returns edhrec card_names w Hreturns) as [Hfetched Hcached].
  rewrite find_combos_in_deck_world.
  rewrite (find_combos_in_deck_eq _ _ _ _ w).
  rewrite (find_combos_in_deck_eq _ _ _ _ (fetch_all edhrec card_names w).2).
  rewrite !find_combos_in_deck_results.
  rewrite (fetch_all_warm edhrec card_names _ Hcached). simpl.
  by rewrite <- Hfetched.
Qed.

Lemma sample_provider_returns :
  ∀ k n, ∃ combos, sample_provider k n = Returns combos.
Proof.
  intros k n. unfold sample_provider.
  destruct (decide (n = "Card A")); by eexists.
Defined.

Lemma X5_second_run_repeats_the_first_witness :
  (∀ k n, ∃ combos, sample_provider k n = Returns combos) ∧
  let first := find_combos_in_deck (seeded_hash 1) sample_str sample_provider
                                   sample_deck fresh in
  find_combos_in_deck (seeded_hash 1) sample_str sample_provider sample_deck first.2
  = first.
Proof.
  split; [exact sample_provider_returns|].
  apply (X5_second_run_repeats_the_first (seeded_hash 1) sample_str sample_provider
           sample_deck fresh sample_provider_returns).
Defined.

(** X6: with none of the deck's cards in the cache and a provider whose
    every attempt fails, the matcher returns two empty lists, leaves the
    cache as it was and has made one attempt per card; the handler
    answers such a request of 1 to 200 cards with a response, not an
    error, whose lists are empty and whose [analyzed_cards] is the
    number of cards. *)
Theorem X6_provider_down_gives_empty_answer hash str_dict edhrec now request w :
  let card_names := ComboRequest.cards request in
  (∀ n, n ∈ card_names → combo_cache w !! lower n = None) →
  (∀ k n, edhrec k n = ImportError ∨ ∃ e, edhrec k n = Raises e) →
  let found := find_combos_in_deck hash str_dict edhrec card_names w in
  found.1 = ([], []) ∧
  combo_cache found.2 = combo_cache w ∧
  provider_calls found.2 = provider_calls w ++ card_names ∧
  (1 ≤ length card_names ≤ 200 →
   ∃ elapsed w',
     check_combos hash str_dict edhrec now request w
     = (inr (ComboResponse.mk [] [] (length card_names) elapsed), w') ∧
     combo_cache w' = combo_cache w ∧
     provider_calls w' = provider_calls w ++ card_names).
Proof.
  intros card_names Hcold Hfails found. subst found.
  assert (∀ w0, combo_cache w0 = combo_cache w →
            (find_combos_in_deck hash str_dict edhrec card_names w0).1 = ([], []) ∧
            combo_cache (find_combos_in_deck hash str_dict edhrec card_names w0).2
            = combo_cache w ∧
            provider_calls (find_combos_in_deck hash str_dict edhrec card_names w0).2
            = provider_calls w0 ++ card_names) as Hrun.
  { intros w0 Hw0.
    destruct (fetch_all_fails edhrec card_names w0) as (Hres & Hcache & Hcalls & _);
      [by intros n Hn; rewrite Hw0; apply Hcold|done|].
    rewrite find_combos_in_deck_world, find_combos_in_deck_results, Hres.
    simpl. split; [done|]. split; [congruence|done]. }
  destruct (Hrun w eq_refl) as (Hres & Hcache & Hcalls).
  do 3 (split; [done|]).
  intros [Hlo Hhi].
  rewrite check_combos_valid; [|intros Hnil; fold card_names in Hnil;
                                 rewrite Hnil in Hlo; simpl in Hlo; lia|done].
  fold card_names.
  destruct (Hrun (time_time now w).2 eq_refl) as (Hres' & Hcache' & Hcalls').
  eexists _, _. split.
  - rewrite Hres'. simpl. reflexivity.
  - simpl. split; [exact Hcache'|exact Hcalls'].
Qed.

Lemma X6_provider_down_gives_empty_answer_witness :
  (∀ n, n ∈ sample_deck → combo_cache fresh !! lower n = None) ∧
  (∀ k n, failing_provider k n = ImportError ∨ ∃ e, failing_provider k n = Raises e) ∧
  1 ≤ length sample_deck ≤ 200 ∧
  ∃ elapsed w',
    check_combos (seeded_hash 1) sample_str failing_provider sample_now
                 sample_request fresh
    = (inr (ComboResponse.mk [] [] 3 elapsed), w') ∧
    combo_cache w' = combo_cache fresh ∧
    provider_calls w' = provider_calls fresh ++ sample_deck.
Proof.
  assert (∀ n, n ∈ sample_deck → combo_cache fresh !! lower n = None) as Hcold.
  { intros n _. apply lookup_empty. }
  assert (∀ k n, failing_provider k n = ImportError
                 ∨ ∃ e, failing_provider k n = Raises e) as Hfails.
  { intros k n. right. by eexists. }
  assert (1 ≤ length sample_deck ≤ 200) as Hlen by (simpl; lia).
  split; [exact Hcold|]. split; [exact Hfails|]. split; [exact Hlen|].
  destruct (X6_provider_down_gives_empty_answer (seeded_hash 1) sample_str
              failing_provider sample_now sample_request fresh Hcold Hfails)
    as (_ & _ & _ & Hhandler).
  apply (Hhandler Hlen).
Defined.

(** ** The inner loop, record after record *)

Section Inner_loop.

Variable hash : string -> Z.
Variable str_dict : ComboRecord.t -> string.
Variable deck_cards : gset string.

Local Abbreviation cid := (combo_id_of hash str_dict).
Local Abbreviation step := (classify hash str_dict deck_cards).
Local Abbreviation present r := (present_of deck_cards (combo_cards_of r)).
Local Abbreviation missing r := (missing_of deck_cards (combo_cards_of r)).

(** A record on which the inner loop does nothing: it has no card, or
    fewer than two present cards, or its identity is already registered
    where the branch it takes looks. *)
Definition settled (m : Matcher) (r : ComboRecord.t) : Prop :=
  combo_cards_of r = [] ∨
  length (present r) < 2 ∨
  (missing r = [] ∧ cid r ∈ odict.keys (found_combos m)) ∨
  (missing r ≠ [] ∧ (cid r ∈ odict.keys (potential_combos m)
                     ∨ cid r ∈ odict.keys (found_combos m))).

Lemma classify_registers_complete m r :
  2 ≤ length (present r) →
  missing r = [] →
  cid r ∉ odict.keys (found_combos m) →
  step m r = mkMatcher
               (found_combos m ++ [(cid r, make_deck_combo (cid r) r (present r))])
               (potential_combos m).
Proof.
  intros Hlen Hmiss Hfresh. unfold classify.
  destruct (combo_cards_of r) as [|c cs] eqn:Hcards; [simpl in Hlen; lia|].
  rewrite decide_False by lia. rewrite Hmiss.
  apply odict_mem_false in Hfresh as Hmem. rewrite Hmem.
  by rewrite odict_set_fresh.
Qed.

Lemma classify_registers_potential m r :
  2 ≤ length (present r) →
  missing r ≠ [] →
  cid r ∉ odict.keys (potential_combos m) →
  cid r ∉ odict.keys (found_combos m) →
  step m r = mkMatcher
               (found_combos m)
               (potential_combos m
                  ++ [(cid r, make_potential r (present r) (missing r))]).
Proof.
  intros Hlen Hmiss Hp Hf. unfold classify.
  destruct (combo_cards_of r) as [|c cs] eqn:Hcards; [simpl in Hlen; lia|].
  rewrite decide_False by lia.
  destruct (missing_of deck_cards (c :: cs)) as [|x xs] eqn:Hm; [done|].
  apply odict_mem_false in Hp as Hmp. apply odict_mem_false in Hf as Hmf.
  rewrite Hmp, Hmf. simpl. by rewrite odict_set_fresh.
Qed.

Lemma settled_skip m r : settled m r → step m r = m.
Proof.
  intros [Hnil|[Hlen|[[Hmiss Hin]|[Hmiss Hin]]]].
  - by apply classify_no_cards.
  - by apply classify_below_threshold.
  - unfold classify. destruct (combo_cards_of r) as [|c cs]; [done|].
    destruct (decide _); [done|]. rewrite Hmiss.
    apply odict_mem_true in Hin. by rewrite Hin.
  - unfold classify. destruct (combo_cards_of r) as [|c cs]; [done|].
    destruct (decide _); [done|].
    destruct (missing_of deck_cards (c :: cs)) as [|x xs]; [done|].
    destruct Hin as [Hin|Hin]; apply odict_mem_true in Hin; rewrite Hin; simpl;
      [done|by rewrite andb_false_r].
Qed.

(** Every record is settled, or registered in exactly one dict. *)
Lemma classify_cases m r :
  settled m r ∨
  (2 ≤ length (present r) ∧ missing r = [] ∧
   cid r ∉ odict.keys (found_combos m)) ∨
  (2 ≤ length (present r) ∧ missing r ≠ [] ∧
   (cid r ∉ odict.keys (potential_combos m)) ∧
   cid r ∉ odict.keys (found_combos m)).
Proof.
  unfold settled.
  destruct (decide (length (present r) < 2)) as [|Hlen]; [by left; right; left|].
  destruct (decide (missing r = [])) as [Hmiss|Hmiss].
  - destruct (decide (cid r ∈ odict.keys (found_combos m))).
    + left. right. right. left. done.
    + right. left. split; [lia|done].
  - destruct (decide (cid r ∈ odict.keys (potential_combos m))).
    { left. do 3 right. split; [done|by left]. }
    destruct (decide (cid r ∈ odict.keys (found_combos m))).
    { left. do 3 right. split; [done|by right]. }
    right. right. split; [lia|done].
Qed.

Lemma foldl_found_grows m rs :
  found_combos m `prefix_of` found_combos (foldl step m rs).
Proof.
  revert m. induction rs as [|r rs IH]; intros m; [done|]. simpl.
  etrans; [apply (classify_found_grows hash str_dict deck_cards m r)|apply IH].
Qed.

Lemma foldl_potential_grows m rs :
  potential_combos m `prefix_of` potential_combos (foldl step m rs).
Proof.
  revert m. induction rs as [|r rs IH]; intros m; [done|]. simpl.
  etrans; [apply (classify_potential_grows hash str_dict deck_cards m r)|apply IH].
Qed.

Lemma prefix_keys {V} (d1 d2 : odict.t V) k :
  d1 `prefix_of` d2 → k ∈ odict.keys d1 → k ∈ odict.keys d2.
Proof.
  intros [d ->] Hk. rewrite odict_keys_app. apply elem_of_app. by left.
Qed.

Lemma prefix_entries {V} (d1 d2 : odict.t V) (e : string * V) :
  d1 `prefix_of` d2 → e ∈ d1 → e ∈ d2.
Proof. intros [d ->] He. apply elem_of_app. by left. Qed.

Lemma settled_grows m m' r :
  found_combos m `prefix_of` found_combos m' →
  potential_combos m `prefix_of` potential_combos m' →
  settled m r → settled m' r.
Proof.
  intros Hf Hp [Hnil|[Hlen|[[Hmiss Hin]|[Hmiss Hin]]]].
  - by left.
  - by right; left.
  - right. right. left. split; [done|]. by eapply prefix_keys.
  - do 3 right. split; [done|].
    destruct Hin; [left|right]; by eapply prefix_keys.
Qed.

Lemma classify_settles m r : settled (step m r) r.
Proof.
  destruct (classify_cases m r) as [Hs|[(Hlen & Hmiss & Hf)|(Hlen & Hmiss & Hp & Hf)]].
  - by rewrite settled_skip.
  - rewrite classify_registers_complete by done.
    right. right. left. split; [done|]. simpl.
    rewrite odict_keys_app. apply elem_of_app. right. apply list_elem_of_here.
  - rewrite classify_registers_potential by done.
    do 3 right. split; [done|]. left. simpl.
    rewrite odict_keys_app. apply elem_of_app. right. apply list_elem_of_here.
Qed.

Lemma foldl_settles m rs r : r ∈ rs → settled (foldl step m rs) r.
Proof.
  revert m. induction rs as [|r0 rs IH]; intros m Hr; [by apply elem_of_nil in Hr|].
  simpl. apply elem_of_cons in Hr as [->|Hr]; [|by apply IH].
  eapply settled_grows;
    [apply foldl_found_grows|apply foldl_potential_grows|apply classify_settles].
Qed.

(** Records that have been processed before are absorbed. *)
Lemma foldl_absorbs m rs rs' :
  (∀ r, r ∈ rs' → r ∈ rs) →
  foldl step m (rs ++ rs') = foldl step m rs.
Proof.
  intros Hsub. rewrite foldl_app.
  induction rs' as [|r rs' IH]; [done|]. simpl.
  rewrite settled_skip.
  - apply IH. intros r' Hr'. apply Hsub. by apply list_elem_of_further.
  - apply foldl_settles, Hsub, list_elem_of_here.
Qed.

(** The keys of each dict stay free of duplicates. *)
Lemma foldl_keys_NoDup m rs :
  NoDup (odict.keys (found_combos m)) →
  NoDup (odict.keys (potential_combos m)) →
  NoDup (odict.keys (found_combos (foldl step m rs))) ∧
  NoDup (odict.keys (potential_combos (foldl step m rs))).
Proof.
  revert m. induction rs as [|r rs IH]; intros m Hf Hp; [done|]. simpl.
  apply IH; destruct (classify_classified hash str_dict deck_cards m r);
    simpl; try done.
  - rewrite odict_keys_app. apply NoDup_app. split; [done|]. split.
    + intros k Hk [->|[]%elem_of_nil]%elem_of_cons. done.
    + apply NoDup_singleton.
  - rewrite odict_keys_app. apply NoDup_app. split; [done|]. split.
    + intros k Hk [->|[]%elem_of_nil]%elem_of_cons. done.
    + apply NoDup_singleton.
Qed.

(** An identity that is registered as complete and not as potential is
    not registered as potential later. *)
Lemma foldl_complete_stays_out_of_potential m rs k :
  k ∈ odict.keys (found_combos m) →
  k ∉ odict.keys (potential_combos m) →
  k ∉ odict.keys (potential_combos (foldl step m rs)).
Proof.
  revert m. induction rs as [|r rs IH]; intros m Hf Hp; [done|]. simpl.
  apply IH.
  - eapply prefix_keys; [apply classify_found_grows|done].
  - destruct (classify_classified hash str_dict deck_cards m r)
      as [| |_ _ _ Hnp Hnf]; simpl; try done.
    rewrite odict_keys_app, elem_of_app. intros [Hin|Hin]; [done|].
    apply list_elem_of_singleton in Hin. subst k. done.
Qed.

(** With nothing missing, all of the combo's cards are present. *)
Lemma nothing_missing_all_present (combo_cards : list string) :
  missing_of deck_cards combo_cards = [] →
  present_of deck_cards combo_cards = combo_cards.
Proof.
  unfold missing_of, present_of.
  induction combo_cards as [|c cs IH]; [done|].
  rewrite !filter_cons.
  destruct (decide (c ∈ deck_cards)) as [Hin|Hout].
  - rewrite decide_False by (intros Hn; by apply Hn).
    intros Hcs. by rewrite IH.
  - by rewrite decide_True.
Qed.

End Inner_loop.

(** The identity of a complete combo is the key it is stored under. *)
Lemma ids_of_values_are_keys (d : odict.t DeckCombo.t) :
  (∀ k dc, (k, dc) ∈ d → Combo.id (DeckCombo.combo dc) = k) →
  (λ dc, Combo.id (DeckCombo.combo dc)) <$> odict.values d = odict.keys d.
Proof.
  induction d as [|[k dc] d IH]; intros Hids; [done|].
  unfold odict.values, odict.keys in *. simpl.
  rewrite (Hids k dc) by apply list_elem_of_here.
  f_equal. apply IH. intros k' dc' Hin. apply Hids. by apply list_elem_of_further.
Qed.

(** ** The matcher's results, entry by entry *)

(** X7: no identity is registered twice in the same dict, so no two
    complete combos of a result carry the same id. *)
Theorem X7_identities_are_not_repeated hash str_dict edhrec card_names w :
  let m := (match_deck hash str_dict edhrec card_names w).1 in
  let results := (find_combos_in_deck hash str_dict edhrec card_names w).1 in
  NoDup (odict.keys (found_combos m)) ∧
  NoDup (odict.keys (potential_combos m)) ∧
  NoDup ((λ dc, Combo.id (DeckCombo.combo dc)) <$> results.1) ∧
  length results.1 = length (odict.keys (found_combos m)) ∧
  length results.2 = length (odict.keys (potential_combos m)).
Proof.
  intros m results. subst m results.
  rewrite find_combos_in_deck_matcher, match_deck_fetch. simpl.
  destruct (foldl_keys_NoDup hash str_dict (deck_cards_of card_names)
              (mkMatcher odict.empty odict.empty) (fetch_all edhrec card_names w).1)
    as [Hf Hp]; [apply NoDup_nil_2|apply NoDup_nil_2|].
  split; [done|]. split; [done|]. split; [|split].
  - rewrite ids_of_values_are_keys; [done|].
    intros k dc [Hin|(r & _ & -> & _ & _ & _ & ->)]%found_after; [|done].
    by apply elem_of_nil in Hin.
  - unfold odict.values, odict.keys. by rewrite !length_fmap.
  - unfold odict.values, odict.keys. by rewrite !length_fmap.
Qed.

(** X8: a complete combo of the result lists as present all the cards of
    its combo, lowercased and in the combo's order; there are at least
    two of them and each is the lowercase of a card of the deck. *)
Theorem X8_complete_combo_is_all_in_the_deck hash str_dict edhrec card_names w dc :
  dc ∈ (find_combos_in_deck hash str_dict edhrec card_names w).1.1 →
  DeckCombo.present_cards dc = lower <$> Combo.cards (DeckCombo.combo dc) ∧
  2 ≤ length (Combo.cards (DeckCombo.combo dc)) ∧
  (∀ c, c ∈ DeckCombo.present_cards dc → ∃ n, n ∈ card_names ∧ c = lower n).
Proof.
  intros Hdc. rewrite find_combos_in_deck_matcher in Hdc. simpl in Hdc.
  apply odict_elem_of_values in Hdc as [k Hin].
  rewrite match_deck_fetch in Hin. simpl in Hin.
  apply found_after in Hin as [Hin|(r & _ & _ & _ & Hlen & Hmiss & ->)].
  { by apply elem_of_nil in Hin. }
  simpl. rewrite (nothing_missing_all_present _ _ Hmiss) in *.
  split; [done|]. split.
  - unfold combo_cards_of in Hlen. by rewrite length_fmap in Hlen.
  - intros c Hc.
    assert (c ∈ present_of (deck_cards_of card_names) (combo_cards_of r)) as Hp
      by by rewrite (nothing_missing_all_present _ _ Hmiss).
    unfold present_of in Hp. apply list_elem_of_filter in Hp as [Hp _].
    by apply elem_of_deck_cards_of.
Qed.

Lemma X8_complete_combo_is_all_in_the_deck_witness :
  let dc := make_deck_combo "c1" c1_complete ["card a"; "card b"] in
  dc ∈ (find_combos_in_deck (seeded_hash 1) sample_str sample_provider
                            sample_deck fresh).1.1 ∧
  DeckCombo.present_cards dc = lower <$> Combo.cards (DeckCombo.combo dc) ∧
  2 ≤ length (Combo.cards (DeckCombo.combo dc)) ∧
  (∀ c, c ∈ DeckCombo.present_cards dc → ∃ n, n ∈ sample_deck ∧ c = lower n).
Proof.
  intros dc.
  assert (dc ∈ (find_combos_in_deck (seeded_hash 1) sample_str sample_provider
                                    sample_deck fresh).1.1) as Hin.
  { vm_compute. apply list_elem_of_here. }
  split; [exact Hin|].
  apply (X8_complete_combo_is_all_in_the_deck (seeded_hash 1) sample_str
           sample_provider sample_deck fresh dc Hin).
Defined.

(** X9: a potential combo of the result has at least two present cards
    and at least one missing piece; each present card is the lowercase
    of a card of the deck and no missing piece is. *)
Theorem X9_potential_combo_is_partly_in_the_deck hash str_dict edhrec card_names w pc :
  pc ∈ (find_combos_in_deck hash str_dict edhrec card_names w).1.2 →
  2 ≤ length (PotentialCombo.cards pc) ∧
  1 ≤ length (PotentialCombo.missing_pieces pc) ∧
  (∀ c, c ∈ PotentialCombo.cards pc → ∃ n, n ∈ card_names ∧ c = lower n) ∧
  (∀ c, c ∈ PotentialCombo.missing_pieces pc →
        ∀ n, n ∈ card_names → c ≠ lower n).
Proof.
  intros Hpc. rewrite find_combos_in_deck_matcher in Hpc. simpl in Hpc.
  apply odict_elem_of_values in Hpc as [k Hin].
  rewrite match_deck_fetch in Hin. simpl in Hin.
  apply potential_after in Hin as [Hin|(r & _ & _ & _ & Hlen & Hmiss & ->)].
  { by apply elem_of_nil in Hin. }
  simpl. split; [done|]. split; [|split].
  - destruct (missing_of _ _); [done|simpl; lia].
  - intros c Hc. unfold present_of in Hc.
    apply list_elem_of_filter in Hc as [Hc _]. by apply elem_of_deck_cards_of.
  - intros c Hc n Hn ->. unfold missing_of in Hc.
    apply list_elem_of_filter in Hc as [Hc _]. apply Hc.
    apply elem_of_deck_cards_of. by exists n.
Qed.

Lemma X9_potential_combo_is_partly_in_the_deck_witness :
  let pc := PotentialCombo.mk ["card a"; "card b"] ["card d"] "three cards" in
  pc ∈ (find_combos_in_deck (seeded_hash 1) sample_str sample_provider
                            sample_deck fresh).1.2 ∧
  2 ≤ length (PotentialCombo.cards pc) ∧
  1 ≤ length (PotentialCombo.missing_pieces pc) ∧
  (∀ c, c ∈ PotentialCombo.cards pc → ∃ n, n ∈ sample_deck ∧ c = lower n) ∧
  (∀ c, c ∈ PotentialCombo.missing_pieces pc →
        ∀ n, n ∈ sample_deck → c ≠ lower n).
Proof.
  intros pc.
  assert (pc ∈ (find_combos_in_deck (seeded_hash 1) sample_str sample_provider
                                    sample_deck fresh).1.2) as Hin.
  { vm_compute. apply list_elem_of_here. }
  split; [exact Hin|].
  apply (X9_potential_combo_is_partly_in_the_deck (seeded_hash 1) sample_str
           sample_provider sample_deck fresh pc Hin).
Defined.

(** X10: processing a record a second time changes nothing, and neither
    does processing again any records that were processed before: the
    first registration of an identity stands. *)
Theorem X10_processed_records_are_absorbed hash str_dict deck_cards m rs rs' :
  (∀ r, r ∈ rs' → r ∈ rs) →
  foldl (classify hash str_dict deck_cards) m (rs ++ rs')
  = foldl (classify hash str_dict deck_cards) m rs ∧
  (∀ r, classify hash str_dict deck_cards (classify hash str_dict deck_cards m r) r
        = classify hash str_dict deck_cards m r).
Proof.
  intros Hsub. split; [by apply foldl_absorbs|].
  intros r. apply settled_skip, classify_settles.
Qed.

Lemma X10_processed_records_are_absorbed_witness :
  let run := foldl (classify (seeded_hash 1) sample_str (deck_cards_of sample_deck))
                   (mkMatcher odict.empty odict.empty) in
  (∀ r, r ∈ [c1_partial; c2_partial] → r ∈ [c2_partial; c1_partial; c3_single]) ∧
  run ([c2_partial; c1_partial; c3_single] ++ [c1_partial; c2_partial])
  = run [c2_partial; c1_partial; c3_single].
Proof.
  intros run.
  assert (∀ r, r ∈ [c1_partial; c2_partial] → r ∈ [c2_partial; c1_partial; c3_single])
    as Hsub.
  { intros r. rewrite !elem_of_cons, !elem_of_nil. tauto. }
  split; [exact Hsub|].
  apply (X10_processed_records_are_absorbed (seeded_hash 1) sample_str
           (deck_cards_of sample_deck) (mkMatcher odict.empty odict.empty)
           _ _ Hsub).
Defined.

(** ** The deck list under a warm cache *)

Lemma elem_of_cached_records cache card_names r :
  r ∈ cached_records cache card_names
  ↔ ∃ n, n ∈ card_names ∧ r ∈ default [] (cache !! lower n).
Proof.
  unfold cached_records. induction card_names as [|n0 rest IH]; simpl.
  - split; [by intros ?%elem_of_nil|by intros (n & ?%elem_of_nil & _)].
  - rewrite elem_of_app, IH. split.
    + intros [Hr|(n & Hn & Hr)].
      * exists n0. split; [apply list_elem_of_here|done].
      * exists n. split; [by apply list_elem_of_further|done].
    + intros (n & [->|Hn]%elem_of_cons & Hr); [by left|right; by exists n].
Qed.

Lemma cached_records_app cache names1 names2 :
  cached_records cache (names1 ++ names2)
  = cached_records cache names1 ++ cached_records cache names2.
Proof. unfold cached_records. by rewrite fmap_app, concat_app. Qed.

(** The cached records depend on the card names through their
    lowercase forms only. *)
Lemma cached_records_lower cache card_names :
  cached_records cache card_names
  = concat ((λ key, default [] (cache !! key)) <$> (lower <$> card_names)).
Proof. unfold cached_records. by rewrite <- list_fmap_compose. Qed.

(** X11: with the deck's cards in the cache, listing a card again, in
    any letter case, does not change the two result lists. *)
Theorem X11_repeated_cards_change_nothing hash str_dict edhrec card_names extra w :
  (∀ n, n ∈ card_names → is_Some (combo_cache w !! lower n)) →
  (∀ n, n ∈ extra → ∃ n', n' ∈ card_names ∧ lower n = lower n') →
  (find_combos_in_deck hash str_dict edhrec (card_names ++ extra) w).1
  = (find_combos_in_deck hash str_dict edhrec card_names w).1.
Proof.
  intros Hwarm Hextra.
  assert (∀ n, n ∈ card_names ++ extra → is_Some (combo_cache w !! lower n))
    as Hwarm'.
  { intros n [Hn|Hn]%elem_of_app; [by apply Hwarm|].
    destruct (Hextra n Hn) as (n' & Hn' & ->). by apply Hwarm. }
  assert (deck_cards_of (card_names ++ extra) = deck_cards_of card_names) as Hdeck.
  { apply set_eq. intros c. rewrite !elem_of_deck_cards_of. split.
    - intros (n & [Hn|Hn]%elem_of_app & ->); [by exists n|].
      destruct (Hextra n Hn) as (n' & Hn' & ->). by exists n'.
    - intros (n & Hn & ->). exists n. split; [|done]. apply elem_of_app. by left. }
  rewrite !find_combos_in_deck_results.
  rewrite (fetch_all_warm _ _ _ Hwarm), (fetch_all_warm _ _ _ Hwarm'). simpl.
  rewrite Hdeck, cached_records_app, foldl_absorbs; [done|].
  intros r (n & Hn & Hr)%elem_of_cached_records.
  destruct (Hextra n Hn) as (n' & Hn' & Hlower). rewrite Hlower in Hr.
  apply elem_of_cached_records. by exists n'.
Qed.

Lemma X11_repeated_cards_change_nothing_witness :
  (∀ n, n ∈ sample_deck → is_Some (combo_cache warm !! lower n)) ∧
  (∀ n, n ∈ ["CARD A"; "card b"] → ∃ n', n' ∈ sample_deck ∧ lower n = lower n') ∧
  (find_combos_in_deck (seeded_hash 1) sample_str sample_provider
                       (sample_deck ++ ["CARD A"; "card b"]) warm).1
  = (find_combos_in_deck (seeded_hash 1) sample_str sample_provider
                         sample_deck warm).1.
Proof.
  assert (∀ n, n ∈ ["CARD A"; "card b"] → ∃ n', n' ∈ sample_deck ∧ lower n = lower n')
    as Hextra.
  { intros n. rewrite !elem_of_cons, elem_of_nil. intros [->|[->|[]]].
    - exists "Card A". split; [|reflexivity]. apply list_elem_of_here.
    - exists "Card B". split; [|reflexivity].
      apply list_elem_of_further, list_elem_of_here. }
  split; [exact sample_deck_is_warm|]. split; [exact Hextra|].
  apply (X11_repeated_cards_change_nothing (seeded_hash 1) sample_str sample_provider
           sample_deck ["CARD A"; "card b"] warm sample_deck_is_warm Hextra).
Defined.

(** X12: when the fetched records that share an identity also share
    their lowercased card list, no identity is registered both as
    complete and as potential. *)
Theorem X12_consistent_records_never_in_both hash str_dict edhrec card_names w :
  let fetched := (fetch_all edhrec card_names w).1 in
  let m := (match_deck hash str_dict edhrec card_names w).1 in
  (∀ r r', r ∈ fetched → r' ∈ fetched →
           combo_id_of hash str_dict r = combo_id_of hash str_dict r' →
           combo_cards_of r = combo_cards_of r') →
  ∀ k, k ∈ odict.keys (found_combos m) → k ∉ odict.keys (potential_combos m).
Proof.
  intros fetched m Hconsistent k [dc Hf]%odict_elem_of_keys
    [pc Hp]%odict_elem_of_keys.
  subst m. rewrite match_deck_fetch in Hf, Hp. simpl in Hf, Hp.
  apply found_after in Hf as [Hf|(r & Hr & Hk & _ & _ & Hmiss & _)];
    [by apply elem_of_nil in Hf|].
  apply potential_after in Hp as [Hp|(r' & Hr' & Hk' & _ & _ & Hmiss' & _)];
    [by apply elem_of_nil in Hp|].
  apply Hmiss'. rewrite <- (Hconsistent r r' Hr Hr'); [done|congruence].
Qed.

Lemma X12_consistent_records_never_in_both_witness :
  let fetched := (fetch_all sample_provider sample_deck fresh).1 in
  let m := (match_deck (seeded_hash 1) sample_str sample_provider sample_deck fresh).1 in
  (∀ r r', r ∈ fetched → r' ∈ fetched →
           combo_id_of (seeded_hash 1) sample_str r
           = combo_id_of (seeded_hash 1) sample_str r' →
           combo_cards_of r = combo_cards_of r') ∧
  "c1" ∈ odict.keys (found_combos m) ∧
  "c1" ∉ odict.keys (potential_combos m).
Proof.
  intros fetched m.
  assert (∀ r r', r ∈ fetched → r' ∈ fetched →
                  combo_id_of (seeded_hash 1) sample_str r
                  = combo_id_of (seeded_hash 1) sample_str r' →
                  combo_cards_of r = combo_cards_of r') as Hconsistent.
  { intros r r' Hr Hr'.
    change (r ∈ [c1_complete; c2_partial; c3_single]) in Hr.
    change (r' ∈ [c1_complete; c2_partial; c3_single]) in Hr'.
    rewrite !elem_of_cons, elem_of_nil in Hr, Hr'.
    destruct Hr as [->|[->|[->|[]]]], Hr' as [->|[->|[->|[]]]];
      intros Hid; (reflexivity || discriminate Hid). }
  assert ("c1" ∈ odict.keys (found_combos m)) as Hin.
  { vm_compute. apply list_elem_of_here. }
  split; [exact Hconsistent|]. split; [exact Hin|].
  apply (X12_consistent_records_never_in_both (seeded_hash 1) sample_str
           sample_provider sample_deck fresh Hconsistent "c1" Hin).
Defined.

(** X13: the first fetched record of an identity that has two present
    cards decides where the identity goes.  If nothing is missing from
    it, its DeckCombo is in the complete list and the identity is not
    registered as potential; if something is missing, its PotentialCombo
    is in the potential list. *)
Theorem X13_first_record_above_threshold_decides
    hash str_dict edhrec card_names w rs1 r rs2 :
  let deck_cards := deck_cards_of card_names in
  let present := present_of deck_cards (combo_cards_of r) in
  let missing := missing_of deck_cards (combo_cards_of r) in
  let combo_id := combo_id_of hash str_dict r in
  let m := (match_deck hash str_dict edhrec card_names w).1 in
  let results := (find_combos_in_deck hash str_dict edhrec card_names w).1 in
  (fetch_all edhrec card_names w).1 = rs1 ++ r :: rs2 →
  2 ≤ length present →
  (∀ r', r' ∈ rs1 → combo_id_of hash str_dict r' = combo_id →
         length (present_of deck_cards (combo_cards_of r')) < 2) →
  (missing = [] →
   make_deck_combo combo_id r present ∈ results.1 ∧
   combo_id ∉ odict.keys (potential_combos m)) ∧
  (missing ≠ [] →
   make_potential r present missing ∈ results.2 ∧
   (combo_id, make_potential r present missing) ∈ potential_combos m).
Proof.
  intros deck_cards present missing combo_id m results Hfetched Hlen Hfirst.
  subst m results.
  rewrite find_combos_in_deck_matcher, match_deck_fetch, Hfetched. simpl.
  rewrite foldl_app. simpl. fold deck_cards.
  set (m1 := foldl (classify hash str_dict deck_cards)
                   (mkMatcher odict.empty odict.empty) rs1).
  assert (combo_id ∉ odict.keys (found_combos m1)) as Hnf.
  { intros [dc Hin]%odict_elem_of_keys. subst m1.
    apply found_after in Hin as [Hin|(r' & Hr' & Hid & _ & Hlen' & _)];
      [by apply elem_of_nil in Hin|].
    specialize (Hfirst r' Hr' (eq_sym Hid)). lia. }
  assert (combo_id ∉ odict.keys (potential_combos m1)) as Hnp.
  { intros [pc Hin]%odict_elem_of_keys. subst m1.
    apply potential_after in Hin as [Hin|(r' & Hr' & Hid & _ & Hlen' & _)];
      [by apply elem_of_nil in Hin|].
    specialize (Hfirst r' Hr' (eq_sym Hid)). lia. }
  split.
  - intros Hmiss.
    rewrite (classify_registers_complete hash str_dict deck_cards m1 r) by done.
    fold combo_id present. split.
    + apply odict_elem_of_values. exists combo_id.
      eapply prefix_entries; [apply foldl_found_grows|]. simpl.
      apply elem_of_app. right. apply list_elem_of_here.
    + apply foldl_complete_stays_out_of_potential; simpl; [|done].
      rewrite odict_keys_app. apply elem_of_app. right. apply list_elem_of_here.
  - intros Hmiss.
    rewrite (classify_registers_potential hash str_dict deck_cards m1 r) by done.
    fold combo_id present missing.
    assert ((combo_id, make_potential r present missing)
            ∈ potential_combos
                (foldl (classify hash str_dict deck_cards)
                   (mkMatcher (found_combos m1)
                      (potential_combos m1
                         ++ [(combo_id, make_potential r present missing)])) rs2))
      as Hin.
    { eapply prefix_entries; [apply foldl_potential_grows|]. simpl.
      apply elem_of_app. right. apply list_elem_of_here. }
    split; [|done]. apply odict_elem_of_values. by exists combo_id.
Qed.

Lemma X13_first_record_above_threshold_decides_witness :
  let deck_cards := deck_cards_of ["Card A"; "Card B"] in
  let m := (match_deck (seeded_hash 1) sample_str split_provider
                       ["Card A"; "Card B"] fresh).1 in
  (fetch_all split_provider ["Card A"; "Card B"] fresh).1
  = [] ++ c1_partial :: [c1_complete] ∧
  2 ≤ length (present_of deck_cards (combo_cards_of c1_partial)) ∧
  missing_of deck_cards (combo_cards_of c1_partial) ≠ [] ∧
  ("c1", make_potential c1_partial
           (present_of deck_cards (combo_cards_of c1_partial))
           (missing_of deck_cards (combo_cards_of c1_partial)))
  ∈ potential_combos m.
Proof.
  intros deck_cards m.
  assert ((fetch_all split_provider ["Card A"; "Card B"] fresh).1
          = [] ++ c1_partial :: [c1_complete]) as Hfetched by reflexivity.
  assert (2 ≤ length (present_of deck_cards (combo_cards_of c1_partial))) as Hlen
    by (vm_compute; lia).
  assert (missing_of deck_cards (combo_cards_of c1_partial) ≠ []) as Hmiss
    by (vm_compute; discriminate).
  split; [exact Hfetched|]. split; [exact Hlen|]. split; [exact Hmiss|].
  destruct (X13_first_record_above_threshold_decides (seeded_hash 1) sample_str
              split_provider ["Card A"; "Card B"] fresh [] c1_partial [c1_complete]
              Hfetched Hlen) as [_ Hpotential].
  { intros r' Hr'. by apply elem_of_nil in Hr'. }
  apply (Hpotential Hmiss).
Defined.

(** X14: with the deck's cards in the cache, the two result lists depend
    on the card names through their lowercase forms only. *)
Theorem X14_deck_is_read_without_case hash str_dict edhrec names1 names2 w :
  lower <$> names1 = lower <$> names2 →
  (∀ n, n ∈ names1 → is_Some (combo_cache w !! lower n)) →
  (find_combos_in_deck hash str_dict edhrec names1 w).1
  = (find_combos_in_deck hash str_dict edhrec names2 w).1.
Proof.
  intros Hlower Hwarm.
  assert (∀ n, n ∈ names2 → is_Some (combo_cache w !! lower n)) as Hwarm'.
  { intros n Hn.
    assert (lower n ∈ lower <$> names1) as Hin
      by (rewrite Hlower; by apply list_elem_of_fmap_2).
    apply list_elem_of_fmap in Hin as (n' & -> & Hn'). by apply Hwarm. }
  rewrite !find_combos_in_deck_results.
  rewrite (fetch_all_warm _ _ _ Hwarm), (fetch_all_warm _ _ _ Hwarm'). simpl.
  unfold deck_cards_of. rewrite !cached_records_lower. by rewrite Hlower.
Qed.

Lemma X14_deck_is_read_without_case_witness :
  lower <$> sample_deck = lower <$> ["CARD A"; "card b"; "cArD c"] ∧
  (∀ n, n ∈ sample_deck → is_Some (combo_cache warm !! lower n)) ∧
  (find_combos_in_deck (seeded_hash 1) sample_str sample_provider sample_deck warm).1
  = (find_combos_in_deck (seeded_hash 1) sample_str sample_provider
                         ["CARD A"; "card b"; "cArD c"] warm).1.
Proof.
  assert (lower <$> sample_deck = lower <$> ["CARD A"; "card b"; "cArD c"])
    as Hlower by reflexivity.
  split; [exact Hlower|]. split; [exact sample_deck_is_warm|].
  apply (X14_deck_is_read_without_case (seeded_hash 1) sample_str sample_provider
           sample_deck ["CARD A"; "card b"; "cArD c"] warm Hlower sample_deck_is_warm).
Defined.

(** ** The allowed origins *)

Lemma split_comma_nonempty s : split_comma s ≠ [].
Proof.
  destruct s as [|a s]; simpl; [done|].
  destruct (decide (a = ","%char)); [done|].
  by destruct (split_comma s).
Qed.

Lemma split_comma_join s : String.concat "," (split_comma s) = s.
Proof.
  induction s as [|a s IH]; [done|]. simpl.
  pose proof (split_comma_nonempty s) as Hne.
  destruct (decide (a = ","%char)) as [->|_].
  - destruct (split_comma s) as [|piece pieces]; [done|].
    change (String.concat "," ("" :: piece :: pieces))
      with (String "," (String.concat "," (piece :: pieces))).
    by rewrite IH.
  - destruct (split_comma s) as [|piece pieces]; [done|].
    destruct pieces as [|piece' pieces]; simpl in *; by rewrite <- IH.
Qed.

Lemma split_comma_pieces s piece :
  piece ∈ split_comma s → ","%char ∉ String.list_ascii_of_string piece.
Proof.
  revert piece. induction s as [|a s IH]; intros piece; simpl.
  - intros ->%list_elem_of_singleton. simpl. apply not_elem_of_nil.
  - pose proof (split_comma_nonempty s) as Hne.
    destruct (decide (a = ","%char)) as [->|Ha].
    + intros [->|Hin]%elem_of_cons; [simpl; apply not_elem_of_nil|by apply IH].
    + destruct (split_comma s) as [|piece0 pieces]; [done|].
      intros [->|Hin]%elem_of_cons.
      * simpl. rewrite not_elem_of_cons. split; [done|].
        apply IH, list_elem_of_here.
      * by apply IH, list_elem_of_further.
Qed.

(** X15: the allowed origins are the pieces of the environment value
    (of the default when it is unset) between its commas: there is at
    least one, none contains a comma, nothing is trimmed or dropped, so
    that joining them with commas gives the value back. *)
Theorem X15_allowed_origins_split_the_value env :
  allowed_origins env ≠ [] ∧
  (∀ origin, origin ∈ allowed_origins env →
             ","%char ∉ String.list_ascii_of_string origin) ∧
  String.concat "," (allowed_origins env) = default "http://localhost:3000" env ∧
  allowed_origins None = ["http://localhost:3000"].
Proof.
  unfold allowed_origins. split; [apply split_comma_nonempty|].
  split; [intros origin; apply split_comma_pieces|].
  split; [apply split_comma_join|reflexivity].
Qed.

Lemma X15_allowed_origins_split_the_value_witness :
  allowed_origins (Some "https://a.example, https://b.example,")
  = ["https://a.example"; " https://b.example"; ""] ∧
  String.concat "," (allowed_origins (Some "https://a.example, https://b.example,"))
  = "https://a.example, https://b.example,".
Proof.
  split; [reflexivity|].
  apply (X15_allowed_origins_split_the_value
           (Some "https://a.example, https://b.example,")).
Defined.
